(** * Graph traversal (src/main.py): a shallow embedding and its properties

    The Python module keeps a graph as an insertion-ordered dictionary
    [adj_list] from nodes to lists of neighbours, and offers mutation
    ([add_node], [add_edge], [remove_node]), queries ([get_neighbors],
    [has_path], [shortest_path], [is_cyclic]) and the traversal [bfs].

    Python values are modelled by the inductive type [value]; exceptions and
    the results of loops by the type [res]; the dictionary by an association
    list that keeps insertion order; the methods that change [self] by a
    state-and-exception monad [M]. *)

From Stdlib Require Import ZArith String List Bool Arith Lia.
Import ListNotations.

Set Implicit Arguments.

(** ** Python values *)

(** The values a caller can hand to the module.  [int], [str] and [tuple]
    are the three types the runtime check of [add_edge] lets through
    ([bool] is a subclass of [int] in Python: [True] is [VInt 1]).  [VList]
    stands for the mutable, unhashable composites, [VNone] for a hashable
    value of another type. *)
#[warnings="-register-all"]
Inductive value : Type :=
| VInt (z : Z)
| VStr (s : string)
| VTuple (items : list value)
| VList (items : list value)
| VNone.

(** Two sequences compared item by item, as Python compares tuples and
    lists. *)
Fixpoint items_eqb (eqb : value -> value -> bool) (l1 l2 : list value)
  : bool :=
  match l1, l2 with
  | [], [] => true
  | u :: l1', v :: l2' => eqb u v && items_eqb eqb l1' l2'
  | _, _ => false
  end.

(** Python's [==] on these values: structural, and never true across types. *)
Fixpoint value_eqb (x y : value) : bool :=
  match x, y with
  | VInt a, VInt b => Z.eqb a b
  | VStr a, VStr b => String.eqb a b
  | VTuple a, VTuple b => items_eqb value_eqb a b
  | VList a, VList b => items_eqb value_eqb a b
  | VNone, VNone => true
  | _, _ => false
  end.

(** [hash(x)] succeeds: a tuple hashes its items, a list never hashes. *)
Fixpoint hashable (x : value) : bool :=
  match x with
  | VInt _ | VStr _ | VNone => true
  | VTuple items => forallb hashable items
  | VList _ => false
  end.

(** [isinstance(x, (int, str, tuple))]: only the outermost type is looked at. *)
Definition isinstance_T (x : value) : bool :=
  match x with
  | VInt _ | VStr _ | VTuple _ => true
  | VList _ | VNone => false
  end.

(** ** Exceptions and results *)

Inductive exn : Type :=
| TypeError (msg : string)
| ValueError (msg : string)
| KeyError (key : value).

(** What running a piece of code gives: a value, a raised exception, or
    [OutOfFuel] when a loop of the model was cut off by its bound (on the
    graphs of the data model the traversals are proved not to end that
    way). *)
Inductive res (A : Type) : Type :=
| Val (a : A)
| Raise (e : exn)
| OutOfFuel.

Arguments Val {A} a.
Arguments Raise {A} e.
Arguments OutOfFuel {A}.

Definition bind {A B : Type} (m : res A) (k : A -> res B) : res B :=
  match m with
  | Val a => k a
  | Raise e => Raise e
  | OutOfFuel => OutOfFuel
  end.

Notation "x <- m ;; k" := (bind m (fun x => k))
  (at level 61, m at next level, right associativity).
Notation "' p <- m ;; k" := (bind m (fun x => match x with p => k end))
  (at level 61, p pattern, m at next level, right associativity).

Definition unhashable : exn := TypeError "unhashable type: 'list'".

(** ** Lists and sets of values *)

(** [x in l] for a Python list: a scan with [==]. *)
Definition list_contains (x : value) (l : list value) : bool :=
  existsb (value_eqb x) l.

(** [l.remove(x)]: the first item equal to [x] goes; [ValueError] when there
    is none. *)
Fixpoint remove_first (x : value) (l : list value) : list value :=
  match l with
  | [] => []
  | y :: l' => if value_eqb y x then l' else y :: remove_first x l'
  end.

Definition list_remove (x : value) (l : list value) : res (list value) :=
  if list_contains x l then Val (remove_first x l)
  else Raise (ValueError "list.remove(x): x not in list").

(** A Python [set] of values, used only through [add] and [in]; both hash
    their argument first. *)
Definition pyset : Type := list value.

Definition set_add (x : value) (s : pyset) : res pyset :=
  if hashable x then Val (if list_contains x s then s else x :: s)
  else Raise unhashable.

Definition set_contains (x : value) (s : pyset) : res bool :=
  if hashable x then Val (list_contains x s) else Raise unhashable.

(** ** Dictionaries *)

(** Insertion-ordered, as Python's [dict]: a new key goes to the end, an
    assignment to a present key keeps its place, a deletion keeps the order
    of the others.  The operations look for the first entry with the key; in
    a dictionary a key has one entry ([NoDup (keys d)]). *)
Section Dict.
Variable V : Type.

Definition keys (d : list (value * V)) : list value := map fst d.

Fixpoint lookup (k : value) (d : list (value * V)) : option V :=
  match d with
  | [] => None
  | (k', v) :: d' => if value_eqb k' k then Some v else lookup k d'
  end.

Fixpoint update (k : value) (v : V) (d : list (value * V))
  : list (value * V) :=
  match d with
  | [] => [(k, v)]
  | (k', v') :: d' =>
      if value_eqb k' k then (k', v) :: d' else (k', v') :: update k v d'
  end.

Fixpoint delete (k : value) (d : list (value * V)) : list (value * V) :=
  match d with
  | [] => []
  | (k', v') :: d' => if value_eqb k' k then d' else (k', v') :: delete k d'
  end.

Definition is_key (k : value) (d : list (value * V)) : bool :=
  match lookup k d with Some _ => true | None => false end.

(** [k in d] *)
Definition dict_contains (k : value) (d : list (value * V)) : res bool :=
  if hashable k then Val (is_key k d) else Raise unhashable.

(** [d[k]] *)
Definition dict_getitem (k : value) (d : list (value * V)) : res V :=
  if hashable k then
    match lookup k d with
    | Some v => Val v
    | None => Raise (KeyError k)
    end
  else Raise unhashable.

(** [d.get(k, default)] *)
Definition dict_get (k : value) (default : V) (d : list (value * V))
  : res V :=
  if hashable k then
    match lookup k d with
    | Some v => Val v
    | None => Val default
    end
  else Raise unhashable.

(** [d[k] = v] *)
Definition dict_setitem (k : value) (v : V) (d : list (value * V))
  : res (list (value * V)) :=
  if hashable k then Val (update k v d) else Raise unhashable.

(** [del d[k]] *)
Definition dict_delitem (k : value) (d : list (value * V))
  : res (list (value * V)) :=
  if hashable k then
    if is_key k d then Val (delete k d) else Raise (KeyError k)
  else Raise unhashable.
End Dict.

(** ** Methods: state and exceptions *)

(** A method that may change the object it is called on and may raise: the
    state it leaves is returned also when it raises, since what was changed
    before the exception stays changed. *)
Definition M (S A : Type) : Type := S -> res A * S.

Definition ret {S A : Type} (a : A) : M S A := fun self => (Val a, self).

Definition mbind {S A B : Type} (m : M S A) (k : A -> M S B) : M S B :=
  fun self =>
    match m self with
    | (Val a, self') => k a self'
    | (Raise e, self') => (Raise e, self')
    | (OutOfFuel, self') => (OutOfFuel, self')
    end.

Notation "x <~ m ;; k" := (mbind m (fun x => k))
  (at level 61, m at next level, right associativity).
Notation "m ;;; k" := (mbind m (fun _ => k))
  (at level 61, right associativity).

Definition raise {S A : Type} (e : exn) : M S A :=
  fun self => (Raise e, self).

Definition lift {S A : Type} (r : res A) : M S A := fun self => (r, self).

(** [for x in xs: body(x)] *)
Fixpoint for_each {S X : Type} (xs : list X) (body : X -> M S unit)
  : M S unit :=
  match xs with
  | [] => ret tt
  | x :: xs' => body x ;;; for_each xs' body
  end.

(** ** The class [Graph] *)

Definition dict : Type := list (value * list value).

Record Graph : Type := mkGraph { adj_list : dict }.

(** [Graph()] *)
Definition empty_graph : Graph := mkGraph [].

(** Run a computation on [self.adj_list] that does not change it. *)
Definition read {A : Type} (f : dict -> res A) : M Graph A :=
  fun self => (f (adj_list self), self).

(** Run a computation that yields the new contents of [self.adj_list]. *)
Definition write (f : dict -> res dict) : M Graph unit :=
  fun self =>
    match f (adj_list self) with
    | Val d => (Val tt, mkGraph d)
    | Raise e => (Raise e, self)
    | OutOfFuel => (OutOfFuel, self)
    end.

(** [self.adj_list[key].append(x)] *)
Definition append_to (key x : value) : M Graph unit :=
  ns <~ read (dict_getitem key) ;;
  write (dict_setitem key (ns ++ [x])).

(** [self.adj_list[key].remove(x)] *)
Definition remove_from (key x : value) : M Graph unit :=
  ns <~ read (dict_getitem key) ;;
  ns' <~ lift (list_remove x ns) ;;
  write (dict_setitem key ns').

(** [if x not in self.adj_list[key]: self.adj_list[key].append(x)] *)
Definition append_if_absent (key x : value) : M Graph unit :=
  ns <~ read (dict_getitem key) ;;
  if negb (list_contains x ns) then append_to key x else ret tt.

Definition add_node (node : value) : M Graph unit :=
  present <~ read (dict_contains node) ;;
  if negb present then write (dict_setitem node []) else ret tt.

Definition add_edge (from_node to_node : value) (bidirectional : bool)
  : M Graph unit :=
  if negb (isinstance_T from_node && isinstance_T to_node) then
    raise (TypeError "Nodes must be hashable types")
  else if value_eqb from_node to_node then
    raise (ValueError "Self loops are not allowed")
  else
    add_node from_node ;;;
    add_node to_node ;;;
    append_if_absent from_node to_node ;;;
    if bidirectional then append_if_absent to_node from_node else ret tt.

(** The returned list is the one stored in the dictionary (see [Store]
    below for what that means for a caller who changes it). *)
Definition get_neighbors (self : Graph) (node : value) : res (list value) :=
  dict_get node [] (adj_list self).

Definition remove_node (node : value) : M Graph unit :=
  present <~ read (dict_contains node) ;;
  if present then
    ks <~ read (fun d => Val (keys d)) ;;
    for_each ks (fun other_node =>
      ns <~ read (dict_getitem other_node) ;;
      if list_contains node ns then remove_from other_node node
      else ret tt) ;;;
    write (dict_delitem node)
  else ret tt.

(** ** Traversals *)

(** Every node a traversal can reach beyond its start is an item of some
    neighbour list, so the number of those items bounds its work. *)
Definition all_items (self : Graph) : list value :=
  concat (map snd (adj_list self)).

Definition node_bound (self : Graph) : nat := S (length (all_items self)).


(** The inner loop of [bfs]: [for neighbor in graph.get_neighbors(current)]. *)
Fixpoint bfs_for (neighbors : list value) (visited : pyset)
    (queue : list value) : res (pyset * list value) :=
  match neighbors with
  | [] => Val (visited, queue)
  | neighbor :: rest =>
      seen <- set_contains neighbor visited ;;
      if negb seen then
        visited' <- set_add neighbor visited ;;
        bfs_for rest visited' (queue ++ [neighbor])
      else bfs_for rest visited queue
  end.

(** [while queue: ...], one unit of fuel for each node taken from the queue. *)
Fixpoint bfs_while (fuel : nat) (graph : Graph) (queue : list value)
    (visited : pyset) (order : list value) {struct fuel} : res (list value) :=
  match queue with
  | [] => Val order
  | current :: queue' =>
      match fuel with
      | O => OutOfFuel
      | S fuel' =>
          let order' := order ++ [current] in
          neighbors <- get_neighbors graph current ;;
          ' (visited', queue'') <- bfs_for neighbors visited queue' ;;
          bfs_while fuel' graph queue'' visited' order'
      end
  end.

Definition bfs (graph : Graph) (start : value) : res (list value) :=
  visited <- set_add start [] ;;
  bfs_while (node_bound graph) graph [start] visited [].

Definition has_path (self : Graph) (start end_ : value) : res bool :=
  order <- bfs self start ;;
  Val (list_contains end_ order).

(** The inner loop of [shortest_path]; the queue holds (vertex, path). *)
Fixpoint shortest_path_for (neighbors : list value) (path : list value)
    (visited : pyset) (queue : list (value * list value))
  : res (pyset * list (value * list value)) :=
  match neighbors with
  | [] => Val (visited, queue)
  | neighbor :: rest =>
      seen <- set_contains neighbor visited ;;
      if negb seen then
        visited' <- set_add neighbor visited ;;
        shortest_path_for rest path visited'
          (queue ++ [(neighbor, path ++ [neighbor])])
      else shortest_path_for rest path visited queue
  end.

Fixpoint shortest_path_while (fuel : nat) (self : Graph) (end_ : value)
    (queue : list (value * list value)) (visited : pyset) {struct fuel}
  : res (list value) :=
  match queue with
  | [] => Val []
  | (vertex, path) :: queue' =>
      match fuel with
      | O => OutOfFuel
      | S fuel' =>
          if value_eqb vertex end_ then Val path
          else
            neighbors <- get_neighbors self vertex ;;
            ' (visited', queue'') <-
              shortest_path_for neighbors path visited queue' ;;
            shortest_path_while fuel' self end_ queue'' visited'
      end
  end.

Definition shortest_path (self : Graph) (start end_ : value)
  : res (list value) :=
  has_start <- dict_contains start (adj_list self) ;;
  if negb has_start then Val []
  else
    has_end <- dict_contains end_ (adj_list self) ;;
    if negb has_end then Val []
    else
      visited <- set_add start [] ;;
      shortest_path_while (node_bound self) self end_
        [(start, [start])] visited.

(** The loop [for neighbor in self.get_neighbors(node)] of [dfs_cycle],
    with the recursive call [dfs_cycle(neighbor, node, visited)] as
    [recurse].  [visited] is the set that all calls share, so it is handed
    on and back with the answer. *)
Fixpoint dfs_cycle_for (recurse : value -> pyset -> res (bool * pyset))
    (parent : value) (neighbors : list value) (visited : pyset)
  : res (bool * pyset) :=
  match neighbors with
  | [] => Val (false, visited)
  | neighbor :: rest =>
      seen <- set_contains neighbor visited ;;
      if negb seen then
        ' (found, visited') <- recurse neighbor visited ;;
        if found then Val (true, visited')
        else dfs_cycle_for recurse parent rest visited'
      else if negb (value_eqb neighbor parent) then Val (true, visited)
      else dfs_cycle_for recurse parent rest visited
  end.

(** The nested function [dfs_cycle] of [is_cyclic]; the fuel bounds the
    depth of the recursion. *)
Fixpoint dfs_cycle (fuel : nat) (self : Graph) (node parent : value)
    (visited : pyset) {struct fuel} : res (bool * pyset) :=
  match fuel with
  | O => OutOfFuel
  | S fuel' =>
      visited1 <- set_add node visited ;;
      neighbors <- get_neighbors self node ;;
      dfs_cycle_for
        (fun neighbor visited' =>
           dfs_cycle fuel' self neighbor node visited')
        parent neighbors visited1
  end.

(** The outer loop of [is_cyclic]: [for node in self.adj_list]. *)
Fixpoint is_cyclic_for (fuel : nat) (self : Graph) (nodes : list value)
    (visited : pyset) : res bool :=
  match nodes with
  | [] => Val false
  | node :: rest =>
      seen <- set_contains node visited ;;
      if negb seen then
        ' (found, visited') <- dfs_cycle fuel self node node visited ;;
        if found then Val true else is_cyclic_for fuel self rest visited'
      else is_cyclic_for fuel self rest visited
  end.

Definition is_cyclic (self : Graph) : res bool :=
  is_cyclic_for (node_bound self) self (keys (adj_list self)) [].

(** ** The sample graph *)

Definition sample_edges : list (value * value) :=
  [ (VStr "A", VStr "B");
    (VStr "A", VStr "C");
    (VStr "B", VStr "D");
    (VStr "B", VStr "E");
    (VStr "C", VStr "F");
    (VStr "E", VStr "F");
    (VStr "F", VStr "G") ].

(** A constructor call followed by a list of method calls: the object when
    none of them raised. *)
Definition built (script : M Graph unit) : res Graph :=
  let (r, g) := script empty_graph in
  _ <- r ;; Val g.

(** [g = Graph()] and then [for from_node, to_node in edges:
    g.add_edge(from_node, to_node)]. *)
Definition build_graph (edges : list (value * value)) : res Graph :=
  built (for_each edges (fun e => add_edge (fst e) (snd e) true)).

Definition build_sample_graph : res Graph := build_graph sample_edges.

(** The sample without its edge E-F: six edges on seven nodes, a tree. *)
Definition tree_edges : list (value * value) :=
  [ (VStr "A", VStr "B");
    (VStr "A", VStr "C");
    (VStr "B", VStr "D");
    (VStr "B", VStr "E");
    (VStr "C", VStr "F");
    (VStr "F", VStr "G") ].

(** A graph built and then given the edge D-G. *)
Definition with_edge_D_G (built_graph : res Graph) : res Graph :=
  g <- built_graph ;;
  let (r, g') := add_edge (VStr "D") (VStr "G") true g in
  _ <- r ;; Val g'.

(** The specification's names for the two exceptions [add_edge] raises. *)
Definition InvalidNodeType : exn := TypeError "Nodes must be hashable types".
Definition SelfLoopError : exn := ValueError "Self loops are not allowed".

(** ** The invariants of the data model *)

(** [adj_list] is a dictionary: a key has one entry, and keys hash. *)
Definition keys_ok (g : Graph) : Prop :=
  NoDup (keys (adj_list g)) /\
  Forall (fun k => hashable k = true) (keys (adj_list g)).

(** No neighbour list holds a node twice. *)
Definition lists_nodup (g : Graph) : Prop :=
  Forall (fun e => NoDup (snd e)) (adj_list g).

(** Every node of a neighbour list is a key of the dictionary. *)
Definition no_dangling (g : Graph) : Prop :=
  forall k ns n,
    In (k, ns) (adj_list g) -> In n ns -> In n (keys (adj_list g)).

Record graph_inv (g : Graph) : Prop := mk_graph_inv {
  inv_keys : keys_ok g;
  inv_lists : lists_nodup g;
  inv_closed : no_dangling g
}.

(** The graphs a program can make: [Graph()] followed by calls of the three
    methods that change it, whatever their arguments and whether or not
    they raise. *)
Inductive reachable : Graph -> Prop :=
| reach_empty : reachable empty_graph
| reach_add_node node g :
    reachable g -> reachable (snd (add_node node g))
| reach_add_edge from_node to_node bidirectional g :
    reachable g ->
    reachable (snd (add_edge from_node to_node bidirectional g))
| reach_remove_node node g :
    reachable g -> reachable (snd (remove_node node g)).

(** ** What the mutating methods do to the dictionary

    Closed forms of the three methods, proved below to be what the methods
    compute when nothing is raised. *)

Definition add_node_d (node : value) (d : dict) : dict :=
  if is_key node d then d else update node [] d.

(** [if b not in d[a]: d[a].append(b)] *)
Definition link (a b : value) (d : dict) : dict :=
  match lookup a d with
  | Some ns => if list_contains b ns then d else update a (ns ++ [b]) d
  | None => d
  end.

Definition add_edge_d (a b : value) (bidirectional : bool) (d : dict)
  : dict :=
  let d1 := link a b (add_node_d b (add_node_d a d)) in
  if bidirectional then link b a d1 else d1.

Definition unlink_all (node : value) (d : dict) : dict :=
  map (fun e => (fst e, remove_first node (snd e))) d.

Definition remove_node_d (node : value) (d : dict) : dict :=
  if is_key node d then delete node (unlink_all node d) else d.

(** ** Neighbour lists as shared objects

    [get_neighbors] hands out a Python list, and Python lists are objects:
    whoever holds one can change it.  To say what a caller can do with the
    result, the lists live in a store of objects here and the dictionary
    holds references to them. *)
Module Store.

Definition ref : Type := nat.

Record State : Type := mkState {
  objects : list (list value);
  adj_refs : list (value * ref)
}.

Definition empty_state : State := mkState [] [].

(** The contents of the list object at [r]. *)
Definition deref (r : ref) (st : State) : list value :=
  nth r (objects st) [].

Fixpoint set_nth (r : nat) (l : list value) (h : list (list value))
  : list (list value) :=
  match h, r with
  | [], _ => []
  | _ :: h', O => l :: h'
  | o :: h', S r' => o :: set_nth r' l h'
  end.

(** A list display [[...]]: a new object. *)
Definition new_list (contents : list value) : M State ref :=
  fun st =>
    (Val (length (objects st)),
     mkState (objects st ++ [contents]) (adj_refs st)).

(** Any change in place of the list object at [r]: [append], [remove],
    [clear], [sort], an item or slice assignment. *)
Definition list_mutate (r : ref) (f : list value -> list value)
  : M State unit :=
  fun st =>
    (Val tt, mkState (set_nth r (f (deref r st)) (objects st)) (adj_refs st)).

(** [l.append(x)] *)
Definition list_append (r : ref) (x : value) : M State unit :=
  list_mutate r (fun l => l ++ [x]).

Definition read_list (r : ref) : M State (list value) :=
  fun st => (Val (deref r st), st).

Definition read_refs {A : Type} (f : list (value * ref) -> res A)
  : M State A :=
  fun st => (f (adj_refs st), st).

Definition write_refs (f : list (value * ref) -> res (list (value * ref)))
  : M State unit :=
  fun st =>
    match f (adj_refs st) with
    | Val d => (Val tt, mkState (objects st) d)
    | Raise e => (Raise e, st)
    | OutOfFuel => (OutOfFuel, st)
    end.

Definition add_node (node : value) : M State unit :=
  present <~ read_refs (dict_contains node) ;;
  if negb present then
    r <~ new_list [] ;;
    write_refs (dict_setitem node r)
  else ret tt.

(** [if x not in self.adj_list[key]: self.adj_list[key].append(x)] *)
Definition append_if_absent (key x : value) : M State unit :=
  r <~ read_refs (dict_getitem key) ;;
  ns <~ read_list r ;;
  if negb (list_contains x ns) then
    r' <~ read_refs (dict_getitem key) ;;
    list_append r' x
  else ret tt.

Definition add_edge (from_node to_node : value) (bidirectional : bool)
  : M State unit :=
  if negb (isinstance_T from_node && isinstance_T to_node) then
    raise (TypeError "Nodes must be hashable types")
  else if value_eqb from_node to_node then
    raise (ValueError "Self loops are not allowed")
  else
    add_node from_node ;;;
    add_node to_node ;;;
    append_if_absent from_node to_node ;;;
    if bidirectional then append_if_absent to_node from_node else ret tt.

(** [return self.adj_list.get(node, [])]: the default [[]] is made before
    [get] is called; the result is a reference, either to the list stored
    for [node] or to that new list. *)
Definition get_neighbors (node : value) : M State ref :=
  default <~ new_list [] ;;
  read_refs (dict_get node default).

(** The graph a state stands for: every reference replaced by the contents
    of its list. *)
Definition view (st : State) : Graph :=
  mkGraph (map (fun e => (fst e, deref (snd e) st)) (adj_refs st)).

(** Every node has a list object of its own, and it exists. *)
Definition state_ok (st : State) : Prop :=
  NoDup (map snd (adj_refs st)) /\
  Forall (fun e => snd e < length (objects st)) (adj_refs st).

(** A method on states does what a method on graphs does: the same
    result, and a state that stands for the graph the other leaves. *)
Definition simulates {A : Type} (m : M State A) (n : M Graph A) : Prop :=
  forall st,
    state_ok st ->
    state_ok (snd (m st)) /\
    fst (m st) = fst (n (view st)) /\
    view (snd (m st)) = snd (n (view st)).

End Store.

(** ** The remaining methods and functions *)

(** The property [size]: [len(self.adj_list)]. *)
Definition size (self : Graph) : nat := length (adj_list self).

(** [sum(len(neighbors) for neighbors in self.adj_list.values())] *)
Definition total_degree (self : Graph) : nat :=
  list_sum (map (fun e => length (snd e)) (adj_list self)).

(** The property [edge_count]; [//] on two numbers that are not negative. *)
Definition edge_count (self : Graph) : nat := total_degree self / 2.

(** [set(l)]: the items are added one by one. *)
Fixpoint set_from (l : list value) (acc : pyset) : res pyset :=
  match l with
  | [] => Val acc
  | x :: l' => acc' <- set_add x acc ;; set_from l' acc'
  end.

(** [next(iter(self.adj_list))] is the first key. *)
Definition is_connected (self : Graph) : res bool :=
  match keys (adj_list self) with
  | [] => Val true
  | start :: _ =>
      order <- bfs self start ;;
      visited <- set_from order [] ;;
      Val (length visited =? length (adj_list self))
  end.




(** ** Edges and paths *)

(** [b] is in the neighbour list stored for [a]. *)
Definition has_edge (g : Graph) (a b : value) : Prop :=
  exists ns, lookup a (adj_list g) = Some ns /\ In b ns.

(** [b] can be reached from [a] along stored edges. *)
Inductive connected (g : Graph) (a : value) : value -> Prop :=
| connected_refl : connected g a a
| connected_step b c :
    connected g a b -> has_edge g b c -> connected g a c.

(** A list of nodes each of which has the next one as a neighbour. *)
Fixpoint is_walk (g : Graph) (p : list value) : Prop :=
  match p with
  | [] => True
  | a :: p' =>
      match p' with
      | [] => True
      | b :: _ => has_edge g a b /\ is_walk g p'
      end
  end.

(** A walk from [a] to [b]. *)
Definition walk_from_to (g : Graph) (a b : value) (p : list value) : Prop :=
  is_walk g p /\ hd_error p = Some a /\ last p a = b /\ p <> [].

(** [has_edge] as a test. *)
Definition adjacent (g : Graph) (a b : value) : bool :=
  match lookup a (adj_list g) with
  | Some ns => list_contains b ns
  | None => false
  end.

(** The number of neighbours stored for [a]. *)
Definition degree (g : Graph) (a : value) : nat :=
  match lookup a (adj_list g) with
  | Some ns => length ns
  | None => 0
  end.


(** A walk from [a] to [b] than which no walk from [a] to [b] has fewer
    nodes. *)
Definition shortest_walk (g : Graph) (a b : value) (p : list value)
  : Prop :=
  walk_from_to g a b p /\
  forall q, walk_from_to g a b q -> length p <= length q.

(** The invariant of the loop of [shortest_path] from [s] to [e].  The
    queue is [q1 ++ q2]; [done] are the vertices taken from it so far. *)
Record sp_inv (g : Graph) (s e : value) (L : nat)
    (q1 q2 : list (value * list value)) (visited : pyset)
    (done : list value) : Prop := mk_sp_inv {
  sp_visited :
    forall x, In x visited <-> In x done \/ In x (map fst (q1 ++ q2));
  sp_paths : forall v p, In (v, p) (q1 ++ q2) -> shortest_walk g s v p;
  sp_level1 : forall v p, In (v, p) q1 -> length p = L;
  sp_level2 : forall v p, In (v, p) q2 -> length p = S L;
  sp_below :
    forall x q, walk_from_to g s x q -> length q < L -> In x done;
  sp_closed : forall x y, In x done -> has_edge g x y -> In y visited;
  sp_not_end : forall x, In x done -> x <> e;
  sp_start : In s visited
}.







(** No node is its own neighbour. *)
Definition no_self_loops (g : Graph) : Prop :=
  forall k ns, In (k, ns) (adj_list g) -> ~ In k ns.

(** Adjacency is symmetric. *)
Definition symmetric (g : Graph) : Prop :=
  forall a b, has_edge g a b -> has_edge g b a.

(** The graphs made without one-directional edges: [Graph()] followed by
    calls of [add_node], of [add_edge] with [bidirectional=True], and of
    [remove_node]. *)
Inductive undirected : Graph -> Prop :=
| undirected_empty : undirected empty_graph
| undirected_add_node node g :
    undirected g -> undirected (snd (add_node node g))
| undirected_add_edge from_node to_node g :
    undirected g -> undirected (snd (add_edge from_node to_node true g))
| undirected_remove_node node g :
    undirected g -> undirected (snd (remove_node node g)).

(** Closes a simulation goal in which both sides stop with the same
    outcome and leave their states as they are. *)
Ltac same_outcome := split; [assumption | split; reflexivity].

(** * Properties *)

(** ** Equality of values *)

(** Induction on a value with the hypothesis available for every item of a
    tuple or list. *)
Lemma value_nested_ind (P : value -> Prop)
    (Hint : forall z, P (VInt z))
    (Hstr : forall s, P (VStr s))
    (Htuple : forall items, Forall P items -> P (VTuple items))
    (Hlist : forall items, Forall P items -> P (VList items))
    (Hnone : P VNone) :
  forall v, P v.
Proof.
  fix IH 1.
  intros [z | s | items | items | ].
  - apply Hint.
  - apply Hstr.
  - apply Htuple. induction items as [| x items IHitems].
    + constructor.
    + constructor; [apply IH | exact IHitems].
  - apply Hlist. induction items as [| x items IHitems].
    + constructor.
    + constructor; [apply IH | exact IHitems].
  - apply Hnone.
Qed.

Lemma items_eqb_eq (a : list value) :
  Forall (fun x => forall y, value_eqb x y = true <-> x = y) a ->
  forall b, items_eqb value_eqb a b = true <-> a = b.
Proof.
  induction 1 as [| x a Hx _ IH]; intros [| y b]; simpl;
    try (split; discriminate); try tauto.
  rewrite andb_true_iff, Hx, IH. split.
  - intros [-> ->]. reflexivity.
  - intros E. injection E as -> ->. tauto.
Qed.

Lemma value_eqb_eq (x y : value) : value_eqb x y = true <-> x = y.
Proof.
  revert y. induction x as [z | s | a IH | a IH | ] using value_nested_ind;
    intros y; destruct y as [z' | s' | b | b | ]; simpl;
    try (split; discriminate); try tauto.
  - rewrite Z.eqb_eq. split; [now intros -> | now intros [= ->]].
  - rewrite String.eqb_eq. split; [now intros -> | now intros [= ->]].
  - rewrite (items_eqb_eq IH). split; [now intros -> | now intros [= ->]].
  - rewrite (items_eqb_eq IH). split; [now intros -> | now intros [= ->]].
Qed.

Lemma value_eqb_spec (x y : value) : reflect (x = y) (value_eqb x y).
Proof. apply iff_reflect. symmetry. apply value_eqb_eq. Qed.

Lemma value_eqb_refl (x : value) : value_eqb x x = true.
Proof. now apply value_eqb_eq. Qed.

Lemma value_eqb_neq (x y : value) : x <> y -> value_eqb x y = false.
Proof.
  intros H. destruct (value_eqb_spec x y); [contradiction | reflexivity].
Qed.

Lemma value_eqb_sym (x y : value) : value_eqb x y = value_eqb y x.
Proof.
  destruct (value_eqb_spec x y) as [-> | H].
  - symmetry. apply value_eqb_refl.
  - symmetry. apply value_eqb_neq. congruence.
Qed.

Lemma value_eq_dec (x y : value) : {x = y} + {x <> y}.
Proof. destruct (value_eqb_spec x y); [left | right]; assumption. Defined.

Lemma list_contains_In (x : value) (l : list value) :
  list_contains x l = true <-> In x l.
Proof.
  unfold list_contains. rewrite existsb_exists. split.
  - intros (y & Hy & E). apply value_eqb_eq in E. now subst.
  - intros H. exists x. split; [assumption | apply value_eqb_refl].
Qed.

Lemma list_contains_false (x : value) (l : list value) :
  list_contains x l = false <-> ~ In x l.
Proof.
  rewrite <- list_contains_In. destruct (list_contains x l); split;
    congruence.
Qed.

Lemma list_contains_app (x : value) (l1 l2 : list value) :
  list_contains x (l1 ++ l2) = list_contains x l1 || list_contains x l2.
Proof. apply existsb_app. Qed.

(** ** Dictionaries *)

Section DictFacts.
Variable V : Type.
Implicit Types (d : list (value * V)) (k : value) (v : V).

Lemma is_key_In k d : is_key k d = true <-> In k (keys d).
Proof.
  unfold is_key. induction d as [| [k' v'] d IH]; simpl.
  - split; [discriminate | tauto].
  - destruct (value_eqb_spec k' k) as [-> | Hne].
    + tauto.
    + rewrite IH. split; [tauto | intros [E | H]; [contradiction | exact H]].
Qed.

Lemma is_key_false k d : is_key k d = false <-> ~ In k (keys d).
Proof.
  rewrite <- is_key_In. destruct (is_key k d); split; congruence.
Qed.

Lemma lookup_Some_In k v d : lookup k d = Some v -> In (k, v) d.
Proof.
  induction d as [| [k' v'] d IH]; simpl; [discriminate |].
  destruct (value_eqb_spec k' k) as [-> | Hne].
  - intros [= ->]. now left.
  - intros H. right. auto.
Qed.

Lemma In_lookup k v d : NoDup (keys d) -> In (k, v) d -> lookup k d = Some v.
Proof.
  induction d as [| [k' v'] d IH]; simpl; [tauto |].
  intros Hnd [E | Hin].
  - injection E as -> ->. now rewrite value_eqb_refl.
  - inversion Hnd as [| ? ? Hnotin Hnd']; subst.
    destruct (value_eqb_spec k' k) as [-> | Hne].
    + exfalso. apply Hnotin. change k with (fst (k, v)). now apply in_map.
    + auto.
Qed.

Lemma lookup_update_same k v d : lookup k (update k v d) = Some v.
Proof.
  induction d as [| [k' v'] d IH]; simpl.
  - now rewrite value_eqb_refl.
  - destruct (value_eqb k' k) eqn:E; simpl; rewrite E; auto.
Qed.

Lemma lookup_update_other k k' v d :
  k <> k' -> lookup k' (update k v d) = lookup k' d.
Proof.
  intros Hne. induction d as [| [k0 v0] d IH]; simpl.
  - now rewrite value_eqb_neq.
  - destruct (value_eqb_spec k0 k) as [-> | H0]; simpl.
    + now rewrite (value_eqb_neq Hne).
    + now rewrite IH.
Qed.

Lemma is_key_update_same k v d : is_key k (update k v d) = true.
Proof. unfold is_key. now rewrite lookup_update_same. Qed.

Lemma is_key_update_other k k' v d :
  k <> k' -> is_key k' (update k v d) = is_key k' d.
Proof. intros H. unfold is_key. now rewrite lookup_update_other. Qed.

Lemma update_lookup_id k v d : lookup k d = Some v -> update k v d = d.
Proof.
  induction d as [| [k' v'] d IH]; simpl; [discriminate |].
  destruct (value_eqb_spec k' k) as [-> | Hne].
  - now intros [= ->].
  - intros H. now rewrite IH.
Qed.

Lemma keys_update_present k v d :
  is_key k d = true -> keys (update k v d) = keys d.
Proof.
  unfold is_key. induction d as [| [k' v'] d IH]; simpl; [discriminate |].
  destruct (value_eqb_spec k' k) as [-> | Hne]; simpl.
  - reflexivity.
  - intros H. now rewrite IH.
Qed.

Lemma update_absent k v d : is_key k d = false -> update k v d = d ++ [(k, v)].
Proof.
  unfold is_key. induction d as [| [k' v'] d IH]; simpl; [reflexivity |].
  destruct (value_eqb_spec k' k) as [-> | Hne]; [discriminate |].
  intros H. now rewrite IH.
Qed.

Lemma keys_update_absent k v d :
  is_key k d = false -> keys (update k v d) = keys d ++ [k].
Proof.
  intros H. rewrite update_absent by exact H. unfold keys.
  now rewrite map_app.
Qed.

Lemma In_keys_update k k' v d :
  In k' (keys (update k v d)) <-> k' = k \/ In k' (keys d).
Proof.
  destruct (is_key k d) eqn:E.
  - rewrite keys_update_present by exact E. apply is_key_In in E.
    split; [tauto | intros [-> | H]; assumption].
  - rewrite keys_update_absent by exact E. rewrite in_app_iff. simpl.
    split; [intros [H | [H | []]]; auto | intros [-> | H]; auto].
Qed.

Lemma In_update k k' v v' d :
  In (k', v') (update k v d) -> (k' = k /\ v' = v) \/ In (k', v') d.
Proof.
  induction d as [| [k0 v0] d IH]; simpl.
  - intros [[= <- <-] | []]. now left.
  - destruct (value_eqb_spec k0 k) as [-> | Hne]; simpl.
    + intros [[= <- <-] | H]; [now left | right; now right].
    + intros [E | H]; [right; now left |].
      destruct (IH H) as [? | ?]; [now left | right; now right].
Qed.

Lemma In_delete k k' v' d : In (k', v') (delete k d) -> In (k', v') d.
Proof.
  induction d as [| [k0 v0] d IH]; simpl; [tauto |].
  destruct (value_eqb k0 k); simpl; intuition.
Qed.

Lemma In_keys_delete k k' d :
  NoDup (keys d) -> (In k' (keys (delete k d)) <-> k' <> k /\ In k' (keys d)).
Proof.
  induction d as [| [k0 v0] d IH]; simpl; [tauto |].
  intros Hnd. inversion Hnd as [| ? ? Hnotin Hnd']; subst.
  destruct (value_eqb_spec k0 k) as [-> | Hne]; simpl.
  - split.
    + intros H. split; [intros -> ; contradiction | now right].
    + intros [Hk [E | H]]; [congruence | exact H].
  - rewrite (IH Hnd'). split.
    + intros [E | [H1 H2]]; [subst; split; [congruence | now left] |].
      split; [exact H1 | now right].
    + intros [H1 [E | H2]]; [now left | right; tauto].
Qed.

Lemma NoDup_keys_delete k d : NoDup (keys d) -> NoDup (keys (delete k d)).
Proof.
  induction d as [| [k0 v0] d IH]; simpl; [tauto |].
  intros Hnd. inversion Hnd as [| ? ? Hnotin Hnd']; subst.
  destruct (value_eqb_spec k0 k) as [-> | Hne]; simpl; [exact Hnd' |].
  constructor; [| auto].
  rewrite In_keys_delete by exact Hnd'. tauto.
Qed.

Lemma NoDup_keys_update k v d : NoDup (keys d) -> NoDup (keys (update k v d)).
Proof.
  intros Hnd. destruct (is_key k d) eqn:E.
  - now rewrite keys_update_present.
  - rewrite keys_update_absent by exact E. apply is_key_false in E.
    apply NoDup_app; [exact Hnd | repeat constructor; simpl; tauto |].
    intros x Hx [<- | []]. contradiction.
Qed.

End DictFacts.

Lemma lookup_app_notin (V : Type) (k : value) (d1 d2 : list (value * V)) :
  ~ In k (keys d1) -> lookup k (d1 ++ d2) = lookup k d2.
Proof.
  induction d1 as [| [k' v'] d1 IH]; simpl; [reflexivity |].
  intros H. destruct (value_eqb_spec k' k) as [-> | Hne]; [tauto |].
  apply IH. tauto.
Qed.

Lemma update_app_notin (V : Type) (k : value) (v v0 : V)
    (d1 d2 : list (value * V)) :
  ~ In k (keys d1) ->
  update k v (d1 ++ (k, v0) :: d2) = d1 ++ (k, v) :: d2.
Proof.
  induction d1 as [| [k' v'] d1 IH]; simpl.
  - now rewrite value_eqb_refl.
  - intros H. destruct (value_eqb_spec k' k) as [-> | Hne]; [tauto |].
    rewrite IH; tauto.
Qed.

Lemma remove_first_notin (x : value) (l : list value) :
  ~ In x l -> remove_first x l = l.
Proof.
  induction l as [| y l IH]; simpl; [reflexivity |].
  intros H. destruct (value_eqb_spec y x) as [-> | Hne]; [tauto |].
  rewrite IH; tauto.
Qed.

Lemma In_remove_first (x y : value) (l : list value) :
  In y (remove_first x l) -> In y l.
Proof.
  induction l as [| z l IH]; simpl; [tauto |].
  destruct (value_eqb z x); simpl; intuition.
Qed.

Lemma NoDup_remove_first (x : value) (l : list value) :
  NoDup l -> NoDup (remove_first x l) /\ ~ In x (remove_first x l).
Proof.
  induction 1 as [| y l Hy Hnd [IH1 IH2]]; simpl.
  - split; [constructor | tauto].
  - destruct (value_eqb_spec y x) as [-> | Hne].
    + split; assumption.
    + split.
      * constructor; [| exact IH1]. intros H. apply Hy.
        eapply In_remove_first; eassumption.
      * simpl. intros [E | H]; [congruence | tauto].
Qed.

(** ** What the methods compute *)

Lemma graph_eta (g : Graph) : mkGraph (adj_list g) = g.
Proof. now destruct g. Qed.

Lemma add_node_run (node : value) (g : Graph) :
  add_node node g =
  if hashable node then (Val tt, mkGraph (add_node_d node (adj_list g)))
  else (Raise unhashable, g).
Proof.
  unfold add_node, add_node_d, mbind, read, write, dict_contains,
    dict_setitem, ret.
  destruct (hashable node); [| reflexivity].
  destruct (is_key node (adj_list g)); simpl.
  - now rewrite graph_eta.
  - reflexivity.
Qed.

Lemma is_key_add_node_d_same (node : value) (d : dict) :
  is_key node (add_node_d node d) = true.
Proof.
  unfold add_node_d. destruct (is_key node d) eqn:E; [exact E |].
  apply is_key_update_same.
Qed.

Lemma is_key_add_node_d (node k : value) (d : dict) :
  is_key k d = true -> is_key k (add_node_d node d) = true.
Proof.
  unfold add_node_d. intros H. destruct (is_key node d) eqn:E; [exact H |].
  destruct (value_eq_dec node k) as [-> | Hne].
  - apply is_key_update_same.
  - now rewrite is_key_update_other.
Qed.

Lemma is_key_lookup (V : Type) (k : value) (d : list (value * V)) :
  is_key k d = true -> exists v, lookup k d = Some v.
Proof.
  unfold is_key. destruct (lookup k d) as [v |]; [eauto | discriminate].
Qed.

(** The guarded append of [add_edge], run on a graph that has the key. *)
Lemma link_run (a b : value) (g : Graph) :
  hashable a = true ->
  is_key a (adj_list g) = true ->
  append_if_absent a b g = (Val tt, mkGraph (link a b (adj_list g))).
Proof.
  intros Ha Hk. destruct (is_key_lookup _ _ Hk) as [ns Hns].
  unfold append_if_absent, mbind, read, append_to, mbind, read, write,
    dict_getitem, dict_setitem, link, ret.
  rewrite Ha, Hns. destruct (list_contains b ns); simpl.
  - now rewrite graph_eta.
  - rewrite ?Ha, ?Hns. reflexivity.
Qed.

Lemma is_key_link (a b k : value) (d : dict) :
  is_key k (link a b d) = is_key k d.
Proof.
  unfold link. destruct (lookup a d) as [ns |] eqn:E; [| reflexivity].
  destruct (list_contains b ns); [reflexivity |].
  destruct (value_eq_dec a k) as [-> | Hne].
  - rewrite is_key_update_same. unfold is_key. now rewrite E.
  - now apply is_key_update_other.
Qed.

Lemma add_edge_run (a b : value) (bidirectional : bool) (g : Graph) :
  isinstance_T a = true -> isinstance_T b = true ->
  hashable a = true -> hashable b = true -> a <> b ->
  add_edge a b bidirectional g
  = (Val tt, mkGraph (add_edge_d a b bidirectional (adj_list g))).
Proof.
  intros Ia Ib Ha Hb Hne. unfold add_edge.
  rewrite Ia, Ib, (value_eqb_neq Hne). simpl.
  unfold mbind at 1. rewrite add_node_run, Ha.
  unfold mbind at 1. rewrite add_node_run, Hb. simpl adj_list.
  set (d2 := add_node_d b (add_node_d a (adj_list g))).
  assert (Ka : is_key a d2 = true)
    by (apply is_key_add_node_d, is_key_add_node_d_same).
  assert (Kb : is_key b d2 = true) by apply is_key_add_node_d_same.
  unfold mbind at 1.
  rewrite (link_run a b (mkGraph d2) Ha Ka). simpl adj_list.
  unfold add_edge_d. fold d2. destruct bidirectional.
  - apply (link_run b a (mkGraph (link a b d2)) Hb).
    simpl. now rewrite is_key_link.
  - reflexivity.
Qed.

Lemma keys_app (V : Type) (d1 d2 : list (value * V)) :
  keys (d1 ++ d2) = keys d1 ++ keys d2.
Proof. apply map_app. Qed.

Lemma keys_unlink_all (node : value) (d : dict) :
  keys (unlink_all node d) = keys d.
Proof.
  unfold keys, unlink_all. rewrite map_map. reflexivity.
Qed.

Lemma is_key_keys (V W : Type) (k : value) (d : list (value * V))
    (d' : list (value * W)) :
  keys d = keys d' -> is_key k d = is_key k d'.
Proof.
  intros E. destruct (is_key k d') eqn:H.
  - apply is_key_In. rewrite E. now apply is_key_In.
  - apply is_key_false. rewrite E. now apply is_key_false.
Qed.

(** The loop of [remove_node], entry by entry: [d1] holds the entries
    already passed, [d2] those still to come. *)
Lemma remove_loop_run (node : value) (d2 : dict) :
  forall d1 : dict,
    NoDup (keys (d1 ++ d2)) ->
    Forall (fun k => hashable k = true) (keys d2) ->
    for_each (keys d2)
      (fun other_node =>
         ns <~ read (dict_getitem other_node) ;;
         if list_contains node ns then remove_from other_node node
         else ret tt)
      (mkGraph (d1 ++ d2))
    = (Val tt, mkGraph (d1 ++ unlink_all node d2)).
Proof.
  induction d2 as [| [k ns] d2 IH]; intros d1 Hnd Hh; simpl.
  - reflexivity.
  - rewrite keys_app in Hnd. simpl in Hnd.
    assert (Hk : ~ In k (keys d1)).
    { intros H. apply (NoDup_remove_2 _ _ _ Hnd). apply in_or_app. now left. }
    inversion Hh as [| ? ? Hhk Hh']; subst.
    assert (Hstep :
      (ns0 <~ read (dict_getitem k) ;;
       if list_contains node ns0 then remove_from k node else ret tt)
        (mkGraph (d1 ++ (k, ns) :: d2))
      = (Val tt, mkGraph ((d1 ++ [(k, remove_first node ns)]) ++ d2))).
    { unfold mbind at 1. unfold read at 1. unfold dict_getitem. simpl.
      rewrite Hhk, lookup_app_notin by exact Hk. simpl.
      rewrite value_eqb_refl. rewrite <- app_assoc. simpl.
      destruct (list_contains node ns) eqn:Hc.
      - unfold remove_from, mbind, read, lift, write, dict_getitem,
          dict_setitem, list_remove. simpl.
        rewrite Hhk, lookup_app_notin by exact Hk. simpl.
        rewrite value_eqb_refl, Hc.
        now rewrite update_app_notin by exact Hk.
      - apply list_contains_false in Hc.
        now rewrite remove_first_notin by exact Hc. }
    unfold mbind at 1. rewrite Hstep.
    rewrite IH.
    + now rewrite <- app_assoc.
    + rewrite keys_app. rewrite keys_app. simpl. rewrite <- app_assoc.
      exact Hnd.
    + exact Hh'.
Qed.

Lemma remove_node_run (node : value) (g : Graph) :
  keys_ok g ->
  remove_node node g =
  if hashable node then (Val tt, mkGraph (remove_node_d node (adj_list g)))
  else (Raise unhashable, g).
Proof.
  intros [Hnd Hh]. unfold remove_node, remove_node_d.
  unfold mbind at 1. unfold read at 1. unfold dict_contains.
  destruct (hashable node) eqn:Hn; [| reflexivity].
  destruct (is_key node (adj_list g)) eqn:Hk.
  - unfold mbind at 1. unfold read at 1.
    unfold mbind at 1.
    pose proof (remove_loop_run node (adj_list g) [] Hnd Hh) as Hloop.
    simpl app in Hloop. rewrite graph_eta in Hloop.
    simpl. rewrite Hloop.
    unfold write, dict_delitem. simpl. rewrite Hn.
    rewrite (is_key_keys node (unlink_all node (adj_list g)) (adj_list g))
      by apply keys_unlink_all.
    now rewrite Hk.
  - unfold ret. now rewrite graph_eta.
Qed.

(** ** The invariants are kept *)

Arguments keys : simpl never.
Arguments is_key : simpl never.

Lemma empty_graph_inv : graph_inv empty_graph.
Proof.
  split.
  - split; constructor.
  - constructor.
  - intros k ns n [].
Qed.

Lemma add_node_d_inv (node : value) (d : dict) :
  hashable node = true ->
  graph_inv (mkGraph d) -> graph_inv (mkGraph (add_node_d node d)).
Proof.
  intros Hn [[Hnd Hh] Hl Hc]. unfold add_node_d.
  destruct (is_key node d) eqn:E; [now split |].
  unfold lists_nodup, no_dangling in *. simpl in *.
  split; [split | |]; simpl.
  - now apply NoDup_keys_update.
  - apply Forall_forall. intros k Hk. apply In_keys_update in Hk.
    destruct Hk as [-> | Hk]; [exact Hn |].
    rewrite Forall_forall in Hh. auto.
  - unfold lists_nodup. simpl. apply Forall_forall. intros [k ns] Hin.
    apply In_update in Hin. destruct Hin as [[-> ->] | Hin]; simpl.
    + constructor.
    + rewrite Forall_forall in Hl. apply (Hl _ Hin).
  - intros k ns n Hin Hn'. apply In_keys_update.
    apply In_update in Hin. destruct Hin as [[-> ->] | Hin].
    + destruct Hn'.
    + right. eapply Hc; eassumption.
Qed.

Lemma link_inv (a b : value) (d : dict) :
  is_key b d = true ->
  graph_inv (mkGraph d) -> graph_inv (mkGraph (link a b d)).
Proof.
  intros Hb [[Hnd Hh] Hl Hc]. unfold link.
  destruct (lookup a d) as [ns |] eqn:Ea; [| now split].
  destruct (list_contains b ns) eqn:Eb; [now split |].
  unfold lists_nodup, no_dangling in *. simpl in *.
  assert (Ka : is_key a d = true) by (unfold is_key; now rewrite Ea).
  assert (Hns : In (a, ns) d) by now apply lookup_Some_In.
  split; [split | |]; simpl.
  - now apply NoDup_keys_update.
  - rewrite keys_update_present by exact Ka. exact Hh.
  - apply Forall_forall. intros [k l] Hin.
    apply In_update in Hin. destruct Hin as [[-> ->] | Hin]; simpl.
    + rewrite Forall_forall in Hl. specialize (Hl _ Hns). simpl in Hl.
      apply list_contains_false in Eb.
      apply NoDup_app; [exact Hl | repeat constructor; simpl; tauto |].
      intros x Hx [<- | []]. contradiction.
    + rewrite Forall_forall in Hl. apply (Hl _ Hin).
  - intros k l n Hin Hn. simpl in *.
    rewrite keys_update_present by exact Ka.
    apply In_update in Hin. destruct Hin as [[-> ->] | Hin].
    + apply in_app_or in Hn. destruct Hn as [Hn | [<- | []]].
      * eapply Hc; eassumption.
      * now apply is_key_In.
    + eapply Hc; eassumption.
Qed.

Lemma add_edge_d_inv (a b : value) (bidirectional : bool) (d : dict) :
  hashable a = true -> hashable b = true ->
  graph_inv (mkGraph d) ->
  graph_inv (mkGraph (add_edge_d a b bidirectional d)).
Proof.
  intros Ha Hb Hinv. unfold add_edge_d.
  set (d2 := add_node_d b (add_node_d a d)).
  assert (H2 : graph_inv (mkGraph d2)) by now repeat apply add_node_d_inv.
  assert (Ka : is_key a d2 = true)
    by (apply is_key_add_node_d, is_key_add_node_d_same).
  assert (Kb : is_key b d2 = true) by apply is_key_add_node_d_same.
  assert (H3 : graph_inv (mkGraph (link a b d2))) by now apply link_inv.
  destruct bidirectional; [| exact H3].
  apply link_inv; [| exact H3]. now rewrite is_key_link.
Qed.

Lemma In_unlink_all (node k : value) (ns' : list value) (d : dict) :
  In (k, ns') (unlink_all node d) ->
  exists ns, In (k, ns) d /\ ns' = remove_first node ns.
Proof.
  unfold unlink_all. rewrite in_map_iff. intros ([k0 ns] & [= <- <-] & Hin).
  now exists ns.
Qed.

Lemma remove_node_d_inv (node : value) (d : dict) :
  graph_inv (mkGraph d) -> graph_inv (mkGraph (remove_node_d node d)).
Proof.
  intros [[Hnd Hh] Hl Hc]. unfold remove_node_d.
  destruct (is_key node d) eqn:E; [| now split].
  unfold lists_nodup, no_dangling in *. simpl in *.
  assert (Hnd' : NoDup (keys (unlink_all node d)))
    by now rewrite keys_unlink_all.
  rewrite Forall_forall in Hl, Hh.
  split; [split | |]; simpl.
  - now apply NoDup_keys_delete.
  - apply Forall_forall. intros k Hk.
    apply In_keys_delete in Hk; [| exact Hnd'].
    rewrite keys_unlink_all in Hk. apply Hh. tauto.
  - apply Forall_forall. intros [k ns'] Hin. apply In_delete in Hin.
    apply In_unlink_all in Hin. destruct Hin as (ns & Hin & ->). simpl.
    apply NoDup_remove_first. apply (Hl _ Hin).
  - intros k ns' n Hin Hn. apply In_delete in Hin.
    apply In_unlink_all in Hin. destruct Hin as (ns & Hin & ->).
    apply In_keys_delete; [exact Hnd' |]. rewrite keys_unlink_all. split.
    + intros ->. revert Hn. apply NoDup_remove_first. apply (Hl _ Hin).
    + apply (Hc k ns); [exact Hin |]. eapply In_remove_first; eassumption.
Qed.

(** Where a call of [add_edge] leaves the graph: untouched (a check
    raised, or the first node does not hash), with only the first node added
    (the second does not hash), or with the edge. *)
Lemma add_edge_cases (a b : value) (bidirectional : bool) (g : Graph) :
  snd (add_edge a b bidirectional g) = g \/
  (hashable a = true /\
   snd (add_edge a b bidirectional g)
   = mkGraph (add_node_d a (adj_list g))) \/
  (hashable a = true /\ hashable b = true /\
   snd (add_edge a b bidirectional g)
   = mkGraph (add_edge_d a b bidirectional (adj_list g))).
Proof.
  destruct (isinstance_T a && isinstance_T b) eqn:Ht.
  - apply andb_true_iff in Ht. destruct Ht as [Ia Ib].
    destruct (value_eqb_spec a b) as [E | Hne].
    + left. unfold add_edge. rewrite Ia, Ib. simpl.
      subst b. now rewrite value_eqb_refl.
    + destruct (hashable a) eqn:Ha.
      * destruct (hashable b) eqn:Hb.
        -- right. right. now rewrite add_edge_run.
        -- right. left. split; [reflexivity |]. unfold add_edge.
           rewrite Ia, Ib, (value_eqb_neq Hne). simpl.
           unfold mbind at 1. rewrite add_node_run, Ha.
           unfold mbind at 1. rewrite add_node_run, Hb. reflexivity.
      * left. unfold add_edge. rewrite Ia, Ib, (value_eqb_neq Hne). simpl.
        unfold mbind at 1. rewrite add_node_run, Ha. reflexivity.
  - left. unfold add_edge. now rewrite Ht.
Qed.

Lemma add_node_inv (node : value) (g : Graph) :
  graph_inv g -> graph_inv (snd (add_node node g)).
Proof.
  intros H. rewrite add_node_run. destruct (hashable node) eqn:E; simpl.
  - apply add_node_d_inv; [exact E | now rewrite graph_eta].
  - exact H.
Qed.

Lemma add_edge_inv (a b : value) (bidirectional : bool) (g : Graph) :
  graph_inv g -> graph_inv (snd (add_edge a b bidirectional g)).
Proof.
  intros H.
  destruct (add_edge_cases a b bidirectional g)
    as [-> | [[Ha ->] | (Ha & Hb & ->)]].
  - exact H.
  - apply add_node_d_inv; [exact Ha | now rewrite graph_eta].
  - apply add_edge_d_inv; [exact Ha | exact Hb | now rewrite graph_eta].
Qed.

Lemma remove_node_inv (node : value) (g : Graph) :
  graph_inv g -> graph_inv (snd (remove_node node g)).
Proof.
  intros H. rewrite remove_node_run by apply H.
  destruct (hashable node); simpl.
  - apply remove_node_d_inv. now rewrite graph_eta.
  - exact H.
Qed.

(** Every graph a program can make satisfies the invariants. *)
Lemma reachable_inv (g : Graph) : reachable g -> graph_inv g.
Proof.
  induction 1.
  - apply empty_graph_inv.
  - now apply add_node_inv.
  - now apply add_edge_inv.
  - now apply remove_node_inv.
Qed.

(** Why the invariants speak of duplicates: [list.remove] takes out one
    occurrence only, so on a dictionary whose list for B held A twice (no
    sequence of method calls makes one) [remove_node('A')] would leave A
    behind in that list. *)
Example remove_node_first_occurrence :
  remove_node (VStr "A")
    (mkGraph [(VStr "A", []); (VStr "B", [VStr "A"; VStr "A"])])
  = (Val tt, mkGraph [(VStr "B", [VStr "A"])]).
Proof. reflexivity. Qed.

(** The check of [add_edge] looks at the outermost type only: a tuple with
    a list inside passes it and fails to hash in [add_node], after the
    first node has been added. *)
Example add_edge_unhashable_tuple :
  add_edge (VStr "a") (VTuple [VList []]) true empty_graph
  = (Raise unhashable, mkGraph [(VStr "a", [])]).
Proof. reflexivity. Qed.

(** [add_node] has no check of the type; [add_edge] has. *)
Example add_node_any_hashable :
  add_node VNone empty_graph = (Val tt, mkGraph [(VNone, [])]) /\
  add_edge VNone (VStr "a") true empty_graph
  = (Raise InvalidNodeType, empty_graph).
Proof. split; reflexivity. Qed.

(** ** Edges *)

Unset Implicit Arguments.

Lemma lookup_link_same (a b : value) (ns : list value) (d : dict) :
  lookup a d = Some ns ->
  exists ns', lookup a (link a b d) = Some ns' /\ In b ns'.
Proof.
  intros H. unfold link. rewrite H.
  destruct (list_contains b ns) eqn:E.
  - exists ns. split; [exact H | now apply list_contains_In].
  - exists (ns ++ [b]). split; [apply lookup_update_same |].
    apply in_or_app. right. now left.
Qed.

Lemma lookup_link_other (a b k : value) (d : dict) :
  a <> k -> lookup k (link a b d) = lookup k d.
Proof.
  intros Hne. unfold link. destruct (lookup a d) as [ns |]; [| reflexivity].
  destruct (list_contains b ns); [reflexivity |].
  now apply lookup_update_other.
Qed.

Lemma link_noop (a b : value) (ns : list value) (d : dict) :
  lookup a d = Some ns -> In b ns -> link a b d = d.
Proof.
  intros H Hin. unfold link. rewrite H.
  apply list_contains_In in Hin. now rewrite Hin.
Qed.

Lemma add_node_d_noop (node : value) (d : dict) :
  is_key node d = true -> add_node_d node d = d.
Proof. intros H. unfold add_node_d. now rewrite H. Qed.

(** After [add_edge(a, b)] the dictionary has both keys, [b] is in the list
    of [a], and with [bidirectional] also [a] in the list of [b]. *)
Lemma add_edge_d_lists (a b : value) (bidirectional : bool) (d : dict) :
  a <> b ->
  let d' := add_edge_d a b bidirectional d in
  (exists na, lookup a d' = Some na /\ In b na) /\
  (exists nb, lookup b d' = Some nb /\ (bidirectional = true -> In a nb)).
Proof.
  intros Hne. unfold add_edge_d.
  set (d2 := add_node_d b (add_node_d a d)).
  assert (Ka : is_key a d2 = true)
    by (apply is_key_add_node_d, is_key_add_node_d_same).
  assert (Kb : is_key b d2 = true) by apply is_key_add_node_d_same.
  destruct (is_key_lookup _ _ Ka) as [na0 Hna0].
  destruct (lookup_link_same a b _ _ Hna0) as (na & Hna & Hb).
  assert (Kb3 : is_key b (link a b d2) = true) by now rewrite is_key_link.
  destruct (is_key_lookup _ _ Kb3) as [nb0 Hnb0].
  destruct bidirectional; simpl.
  - split.
    + exists na. split; [| exact Hb].
      rewrite lookup_link_other by congruence. exact Hna.
    + destruct (lookup_link_same b a _ _ Hnb0) as (nb & Hnb & Ha).
      exists nb. split; [exact Hnb | intros _; exact Ha].
  - split.
    + exists na. split; assumption.
    + exists nb0. split; [exact Hnb0 | discriminate].
Qed.

Lemma add_edge_d_idempotent (a b : value) (bidirectional : bool) (d : dict) :
  a <> b ->
  add_edge_d a b bidirectional (add_edge_d a b bidirectional d)
  = add_edge_d a b bidirectional d.
Proof.
  intros Hne.
  destruct (add_edge_d_lists a b bidirectional d Hne)
    as [(na & Hna & Hb) (nb & Hnb & Ha)].
  set (d' := add_edge_d a b bidirectional d) in *.
  unfold add_edge_d at 1.
  assert (Ka : is_key a d' = true) by (unfold is_key; now rewrite Hna).
  assert (Kb : is_key b d' = true) by (unfold is_key; now rewrite Hnb).
  rewrite (add_node_d_noop _ _ Ka), (add_node_d_noop _ _ Kb).
  rewrite (link_noop a b na d' Hna Hb).
  destruct bidirectional; [| reflexivity].
  apply (link_noop b a nb d' Hnb). now apply Ha.
Qed.

(** ** Breadth-first search *)

Lemma bfs_while_done (fuel : nat) (graph : Graph) (visited : pyset)
    (order : list value) :
  bfs_while fuel graph [] visited order = Val order.
Proof. now destruct fuel. Qed.

Lemma get_neighbors_absent (g : Graph) (node : value) :
  hashable node = true -> is_key node (adj_list g) = false ->
  get_neighbors g node = Val [].
Proof.
  intros Hh Hk. unfold get_neighbors, dict_get. rewrite Hh.
  unfold is_key in Hk. now destruct (lookup node (adj_list g)).
Qed.

Lemma get_neighbors_total (g : Graph) (node : value) :
  hashable node = true ->
  exists ns, get_neighbors g node = Val ns /\ incl ns (all_items g).
Proof.
  intros Hh. unfold get_neighbors, dict_get. rewrite Hh.
  destruct (lookup node (adj_list g)) as [ns |] eqn:E.
  - exists ns. split; [reflexivity |].
    intros x Hx. unfold all_items. apply in_concat. exists ns.
    split; [| exact Hx]. apply lookup_Some_In in E.
    change ns with (snd (node, ns)). now apply in_map.
  - exists []. split; [reflexivity | intros x []].
Qed.

(** The inner loop of [bfs] ends, and what it adds to the queue it adds to
    the visited set. *)
Lemma bfs_for_spec (neighbors : list value) :
  forall (visited : pyset) (queue : list value),
    Forall (fun n => hashable n = true) neighbors ->
    NoDup visited ->
    exists visited' queue',
      bfs_for neighbors visited queue = Val (visited', queue') /\
      NoDup visited' /\
      incl visited' (neighbors ++ visited) /\
      incl queue queue' /\
      length queue' + length visited = length queue + length visited' /\
      (Forall (fun n => hashable n = true) queue ->
       Forall (fun n => hashable n = true) queue').
Proof.
  induction neighbors as [| n rest IH]; intros visited queue Hh Hnd; simpl.
  - exists visited, queue. repeat split; auto using incl_refl.
  - inversion Hh as [| ? ? Hn Hrest]; subst.
    unfold set_contains, set_add. rewrite Hn. simpl.
    destruct (list_contains n visited) eqn:E; simpl.
    + destruct (IH visited queue Hrest Hnd)
        as (v' & q' & Hrun & Hnd' & Hv & Hq & Hlen & Hhq).
      exists v', q'. repeat split; auto.
      intros x Hx. right. now apply Hv.
    + apply list_contains_false in E.
      destruct (IH (n :: visited) (queue ++ [n]) Hrest)
        as (v' & q' & Hrun & Hnd' & Hv & Hq & Hlen & Hhq).
      { now constructor. }
      exists v', q'. repeat split; auto.
      * intros x Hx. apply Hv in Hx. apply in_app_or in Hx.
        destruct Hx as [Hx | [<- | Hx]].
        -- right. apply in_or_app. now left.
        -- now left.
        -- right. apply in_or_app. now right.
      * intros x Hx. apply Hq. apply in_or_app. now left.
      * rewrite length_app in Hlen. simpl in *. lia.
      * intros Hqh. apply Hhq. apply Forall_app. split; [exact Hqh |].
        now repeat constructor.
Qed.

(** The loop of [bfs] ends within the fuel of [node_bound]: every node
    enters the queue once, when it enters [visited], and [visited] stays
    within the start node and the items of the neighbour lists. *)
Lemma bfs_while_total (g : Graph) (start : value) :
  Forall (fun n => hashable n = true) (all_items g) ->
  forall (fuel : nat) (queue : list value) (visited : pyset)
         (order : list value),
    Forall (fun n => hashable n = true) queue ->
    NoDup visited ->
    incl visited (start :: all_items g) ->
    length queue + node_bound g <= fuel + length visited ->
    exists order',
      bfs_while fuel g queue visited order = Val order' /\
      incl (order ++ queue) order'.
Proof.
  intros Hitems. induction fuel as [| fuel IH];
    intros queue visited order Hq Hnd Hincl Hlen.
  - destruct queue as [| c q].
    + exists order. split; [reflexivity |]. rewrite app_nil_r.
      apply incl_refl.
    + exfalso. pose proof (NoDup_incl_length Hnd Hincl) as Hb.
      unfold node_bound in *. simpl in *. lia.
  - destruct queue as [| c q].
    + exists order. split; [reflexivity |]. rewrite app_nil_r.
      apply incl_refl.
    + inversion Hq as [| ? ? Hc Hq']; subst.
      destruct (get_neighbors_total g c Hc) as (ns & Hns & Hsub).
      assert (Hnsh : Forall (fun n => hashable n = true) ns).
      { rewrite Forall_forall in *. auto. }
      destruct (bfs_for_spec ns visited q Hnsh Hnd)
        as (v' & q' & Hrun & Hnd' & Hv & Hqq & Hl & Hhq).
      destruct (IH q' v' (order ++ [c])) as (order' & Hrun' & Hord).
      * now apply Hhq.
      * exact Hnd'.
      * intros x Hx. apply Hv in Hx. apply in_app_or in Hx.
        destruct Hx as [Hx | Hx]; [right; now apply Hsub | now apply Hincl].
      * simpl in Hlen. lia.
      * exists order'. split.
        -- simpl. rewrite Hns. simpl. rewrite Hrun. simpl. exact Hrun'.
        -- intros x Hx. apply Hord. apply in_app_or in Hx.
           rewrite <- app_assoc. simpl. apply in_or_app.
           destruct Hx as [Hx | [<- | Hx]].
           ++ now left.
           ++ right. now left.
           ++ right. right. now apply Hqq.
Qed.

(** [bfs] returns, and its order contains the start node. *)
Lemma bfs_total (g : Graph) (start : value) :
  hashable start = true ->
  Forall (fun n => hashable n = true) (all_items g) ->
  exists order, bfs g start = Val order /\ In start order.
Proof.
  intros Hs Hitems. unfold bfs, set_add. rewrite Hs. simpl.
  destruct (bfs_while_total g start Hitems (node_bound g) [start] [start] [])
    as (order & Hrun & Hord).
  - now repeat constructor.
  - repeat constructor. simpl. tauto.
  - intros x [<- | []]. now left.
  - rewrite Nat.add_comm. apply le_n.
  - exists order. split; [exact Hrun |]. apply Hord. now left.
Qed.

Lemma graph_inv_items_hashable (g : Graph) :
  graph_inv g -> Forall (fun n => hashable n = true) (all_items g).
Proof.
  intros [[_ Hh] _ Hc]. apply Forall_forall. intros n Hn.
  unfold all_items in Hn. apply in_concat in Hn.
  destruct Hn as (ns & Hns & Hn). apply in_map_iff in Hns.
  destruct Hns as ([k ns'] & E & Hin). simpl in E. subst ns'.
  rewrite Forall_forall in Hh. apply Hh. eapply Hc; eassumption.
Qed.

(** ** Removal *)

Lemma remove_node_d_spec (x : value) (d : dict) :
  graph_inv (mkGraph d) ->
  is_key x (remove_node_d x d) = false /\
  forall k ns, In (k, ns) (remove_node_d x d) -> ~ In x ns.
Proof.
  intros [[Hnd Hh] Hl Hc]. unfold remove_node_d.
  unfold lists_nodup, no_dangling in *. simpl in *.
  rewrite Forall_forall in Hl.
  destruct (is_key x d) eqn:E.
  - assert (Hnd' : NoDup (keys (unlink_all x d)))
      by now rewrite keys_unlink_all.
    split.
    + apply is_key_false. rewrite In_keys_delete by exact Hnd'. tauto.
    + intros k ns' Hin. apply In_delete in Hin.
      apply In_unlink_all in Hin. destruct Hin as (ns & Hin & ->).
      apply NoDup_remove_first. apply (Hl _ Hin).
  - split; [exact E |]. intros k ns Hin Hx.
    apply is_key_false in E. apply E. eapply Hc; eassumption.
Qed.

(** ** Lists as shared objects *)

Lemma length_set_nth (r : nat) (l : list value) (h : list (list value)) :
  length (Store.set_nth r l h) = length h.
Proof.
  revert r. induction h as [| o h IH]; intros [| r]; simpl; auto.
Qed.

Lemma nth_set_nth_same (r : nat) (l : list value) (h : list (list value)) :
  r < length h -> nth r (Store.set_nth r l h) [] = l.
Proof.
  revert r. induction h as [| o h IH]; intros [| r]; simpl; try lia.
  - reflexivity.
  - intros H. apply IH. lia.
Qed.

Lemma nth_set_nth_other (r r' : nat) (l : list value)
    (h : list (list value)) :
  r <> r' -> nth r' (Store.set_nth r l h) [] = nth r' h [].
Proof.
  revert r r'. induction h as [| o h IH]; intros [| r] [| r'] H; simpl;
    try reflexivity; try congruence.
  apply IH. congruence.
Qed.

Lemma keys_view (st : Store.State) :
  keys (adj_list (Store.view st)) = keys (Store.adj_refs st).
Proof.
  unfold Store.view, keys. simpl. rewrite map_map. reflexivity.
Qed.

Lemma lookup_view (k : value) (st : Store.State) :
  lookup k (adj_list (Store.view st))
  = option_map (fun r => Store.deref r st) (lookup k (Store.adj_refs st)).
Proof.
  unfold Store.view. simpl.
  induction (Store.adj_refs st) as [| [k' r] refs IH]; simpl.
  - reflexivity.
  - destruct (value_eqb k' k); [reflexivity | exact IH].
Qed.

Lemma is_key_view (k : value) (st : Store.State) :
  is_key k (adj_list (Store.view st)) = is_key k (Store.adj_refs st).
Proof.
  unfold is_key. rewrite lookup_view.
  now destruct (lookup k (Store.adj_refs st)).
Qed.

Lemma lookup_ref_In (k : value) (r : Store.ref)
    (refs : list (value * Store.ref)) :
  lookup k refs = Some r -> In r (map snd refs).
Proof.
  intros H. apply lookup_Some_In in H.
  change r with (snd (k, r)). now apply in_map.
Qed.

(** Two stores with the same dictionary of references stand for the same
    graph when the referenced lists have the same contents. *)
Lemma view_ext (objs objs' : list (list value))
    (refs : list (value * Store.ref)) :
  (forall r, In r (map snd refs) -> nth r objs' [] = nth r objs []) ->
  Store.view (Store.mkState objs' refs) = Store.view (Store.mkState objs refs).
Proof.
  intros H. unfold Store.view, Store.deref. simpl. f_equal.
  apply map_ext_in. intros [k r] Hin. simpl. f_equal. apply H.
  change r with (snd (k, r)). now apply in_map.
Qed.

(** Changing the one list object that the entry of [node] refers to
    changes the graph at [node], and nowhere else. *)
Lemma view_update (node : value) (r : Store.ref) (l : list value)
    (objs objs' : list (list value)) (refs : list (value * Store.ref)) :
  NoDup (map snd refs) ->
  lookup node refs = Some r ->
  nth r objs' [] = l ->
  (forall r', r' <> r -> nth r' objs' [] = nth r' objs []) ->
  Store.view (Store.mkState objs' refs)
  = mkGraph (update node l (adj_list (Store.view (Store.mkState objs refs)))).
Proof.
  intros Hnd Hlook Hsame Hother. unfold Store.view, Store.deref. simpl.
  f_equal. induction refs as [| [k r0] refs IH]; simpl in *.
  - discriminate.
  - inversion Hnd as [| ? ? Hnotin Hnd']; subst.
    destruct (value_eqb_spec k node) as [-> | Hne].
    + injection Hlook as ->. f_equal.
      apply map_ext_in. intros [k' r'] Hin. simpl. f_equal.
      apply Hother. intros ->. apply Hnotin.
      change r with (snd (k', r)). now apply in_map.
    + f_equal.
      * f_equal. apply Hother. intros ->. apply Hnotin.
        now apply (lookup_ref_In node).
      * now apply IH.
Qed.

Lemma get_neighbors_run (node : value) (st : Store.State) :
  Store.get_neighbors node st =
  let st1 := Store.mkState (Store.objects st ++ [[]]) (Store.adj_refs st) in
  if hashable node then
    match lookup node (Store.adj_refs st) with
    | Some r => (Val r, st1)
    | None => (Val (length (Store.objects st)), st1)
    end
  else (Raise unhashable, st1).
Proof.
  unfold Store.get_neighbors, mbind, Store.new_list, Store.read_refs,
    dict_get. simpl.
  destruct (hashable node); [| reflexivity].
  now destruct (lookup node (Store.adj_refs st)).
Qed.

Lemma state_ok_ref_bound (st : Store.State) (r : Store.ref) :
  Store.state_ok st -> In r (map snd (Store.adj_refs st)) ->
  r < length (Store.objects st).
Proof.
  intros [_ Hb] Hin. apply in_map_iff in Hin.
  destruct Hin as (e & <- & He). rewrite Forall_forall in Hb. now apply Hb.
Qed.

Lemma nth_app_empty (r : nat) (objs : list (list value)) :
  nth r (objs ++ [[]]) [] = nth r objs [].
Proof.
  destruct (Nat.lt_ge_cases r (length objs)) as [H | H].
  - now apply app_nth1.
  - rewrite app_nth2 by exact H. rewrite (nth_overflow objs) by exact H.
    destruct (r - length objs) as [| [| n]]; reflexivity.
Qed.

(** The methods on states do what the methods on graphs do. *)

Lemma simulates_ret (A : Type) (a : A) : Store.simulates (ret a) (ret a).
Proof. intros st Hok. same_outcome. Qed.

Lemma simulates_raise (A : Type) (e : exn) :
  Store.simulates (raise (A := A) e) (raise e).
Proof. intros st Hok. same_outcome. Qed.

Lemma simulates_bind (A B : Type) (m : M Store.State A) (n : M Graph A)
    (k1 : A -> M Store.State B) (k2 : A -> M Graph B) :
  Store.simulates m n ->
  (forall a, Store.simulates (k1 a) (k2 a)) ->
  Store.simulates (mbind m k1) (mbind n k2).
Proof.
  intros Hm Hk st Hok. destruct (Hm st Hok) as (Hok' & Hres & Hview).
  unfold mbind. destruct (m st) as [r st'].
  destruct (n (Store.view st)) as [r' g']. simpl in *. subst r' g'.
  destruct r as [a | e |]; [| same_outcome | same_outcome].
  now apply Hk.
Qed.

Lemma simulates_add_node (node : value) :
  Store.simulates (Store.add_node node) (add_node node).
Proof.
  intros [objs refs] Hok.
  pose proof (fun r => state_ok_ref_bound _ r Hok) as Hbound.
  rewrite add_node_run. unfold add_node_d. rewrite is_key_view.
  unfold Store.add_node, mbind, Store.read_refs, dict_contains. simpl.
  destruct (hashable node) eqn:Hh; [| same_outcome].
  destruct (is_key node refs) eqn:Hk; simpl.
  - split; [exact Hok | split; reflexivity].
  - unfold Store.write_refs, dict_setitem. simpl. rewrite Hh. simpl.
    rewrite update_absent by exact Hk.
    pose proof (is_key_view node (Store.mkState objs refs)) as Hk'.
    unfold Store.view in Hk'. simpl in Hk'. rewrite Hk in Hk'.
    rewrite update_absent by exact Hk'.
    destruct Hok as [Hnd Hb]. simpl in *.
    split; [split |]; simpl.
    + rewrite map_app. simpl. apply NoDup_app; [exact Hnd | |].
      * repeat constructor. simpl. tauto.
      * intros r Hr [<- | []]. specialize (Hbound _ Hr). lia.
    + apply Forall_app. split.
      * eapply Forall_impl; [| exact Hb]. intros e He. simpl in *.
        rewrite length_app. simpl. lia.
      * repeat constructor. simpl. rewrite length_app. simpl. lia.
    + split; [reflexivity |]. unfold Store.view, Store.deref. simpl.
      rewrite map_app. simpl. rewrite nth_app_empty, nth_overflow by lia.
      f_equal. f_equal. apply map_ext. intros e.
      now rewrite nth_app_empty.
Qed.

Lemma simulates_append_if_absent (key x : value) :
  Store.simulates (Store.append_if_absent key x) (append_if_absent key x).
Proof.
  intros [objs refs] Hok.
  pose proof (fun r => state_ok_ref_bound _ r Hok) as Hbound.
  unfold Store.append_if_absent, append_if_absent, mbind,
    Store.read_refs, read, dict_getitem, Store.read_list. simpl.
  destruct (hashable key) eqn:Hh; [| same_outcome].
  pose proof (lookup_view key (Store.mkState objs refs)) as Hl.
  simpl in Hl. unfold Store.view in Hl. simpl in Hl. rewrite Hl.
  destruct (lookup key refs) as [r |] eqn:E; simpl; [| same_outcome].
  destruct (list_contains x (Store.deref r (Store.mkState objs refs)));
    simpl; [same_outcome |].
  unfold append_to, mbind, read, write, dict_getitem, dict_setitem. simpl.
  rewrite ?Hh, ?Hl, ?E. simpl. rewrite ?Hh, ?Hl, ?E. simpl.
  assert (Hr : r < length objs)
    by (apply Hbound; now apply (lookup_ref_In key)).
  destruct Hok as [Hnd Hb]. simpl in *.
  split; [split |]; simpl.
  - exact Hnd.
  - now rewrite length_set_nth.
  - split; [reflexivity |].
    apply (view_update key r); try assumption.
    + now apply nth_set_nth_same.
    + intros r' Hne. apply nth_set_nth_other. congruence.
Qed.

(** The state that [add_edge] leaves stands for the graph that the
    [add_edge] of the graph model leaves, with the same result. *)
Lemma simulates_add_edge (a b : value) (bidirectional : bool) :
  Store.simulates (Store.add_edge a b bidirectional)
    (add_edge a b bidirectional).
Proof.
  unfold Store.add_edge, add_edge.
  destruct (negb (isinstance_T a && isinstance_T b));
    [apply simulates_raise |].
  destruct (value_eqb a b); [apply simulates_raise |].
  apply simulates_bind; [apply simulates_add_node | intros _].
  apply simulates_bind; [apply simulates_add_node | intros _].
  apply simulates_bind; [apply simulates_append_if_absent | intros _].
  destruct bidirectional;
    [apply simulates_append_if_absent | apply simulates_ret].
Qed.

(** ** The other traversals return *)

Lemma shortest_path_for_spec (path : list value) (neighbors : list value) :
  forall (visited : pyset) (queue : list (value * list value)),
    Forall (fun n => hashable n = true) neighbors ->
    NoDup visited ->
    exists visited' queue',
      shortest_path_for neighbors path visited queue = Val (visited', queue') /\
      NoDup visited' /\
      incl visited' (neighbors ++ visited) /\
      length queue' + length visited = length queue + length visited' /\
      (Forall (fun e => hashable (fst e) = true) queue ->
       Forall (fun e => hashable (fst e) = true) queue').
Proof.
  induction neighbors as [| n rest IH]; intros visited queue Hh Hnd; simpl.
  - exists visited, queue. repeat split; auto using incl_refl.
  - inversion Hh as [| ? ? Hn Hrest]; subst.
    unfold set_contains, set_add. rewrite Hn. simpl.
    destruct (list_contains n visited) eqn:E; simpl.
    + destruct (IH visited queue Hrest Hnd)
        as (v' & q' & Hrun & Hnd' & Hv & Hlen & Hhq).
      exists v', q'. repeat split; auto.
      intros x Hx. right. now apply Hv.
    + apply list_contains_false in E.
      destruct (IH (n :: visited) (queue ++ [(n, path ++ [n])]) Hrest)
        as (v' & q' & Hrun & Hnd' & Hv & Hlen & Hhq).
      { now constructor. }
      exists v', q'. repeat split; auto.
      * intros x Hx. apply Hv in Hx. apply in_app_or in Hx.
        destruct Hx as [Hx | [<- | Hx]].
        -- right. apply in_or_app. now left.
        -- now left.
        -- right. apply in_or_app. now right.
      * rewrite length_app in Hlen. simpl in *. lia.
      * intros Hqh. apply Hhq. apply Forall_app. split; [exact Hqh |].
        now repeat constructor.
Qed.

Lemma shortest_path_while_total (g : Graph) (start end_ : value) :
  Forall (fun n => hashable n = true) (all_items g) ->
  forall (fuel : nat) (queue : list (value * list value)) (visited : pyset),
    Forall (fun e => hashable (fst e) = true) queue ->
    NoDup visited ->
    incl visited (start :: all_items g) ->
    length queue + node_bound g <= fuel + length visited ->
    exists path, shortest_path_while fuel g end_ queue visited = Val path.
Proof.
  intros Hitems. induction fuel as [| fuel IH];
    intros queue visited Hq Hnd Hincl Hlen.
  - destruct queue as [| [c p] q].
    + now exists [].
    + exfalso. pose proof (NoDup_incl_length Hnd Hincl) as Hb.
      unfold node_bound in *. simpl in *. lia.
  - destruct queue as [| [c p] q].
    + now exists [].
    + simpl. destruct (value_eqb c end_); [now exists p |].
      inversion Hq as [| ? ? Hc Hq']; subst. simpl in Hc.
      destruct (get_neighbors_total g c Hc) as (ns & Hns & Hsub).
      assert (Hnsh : Forall (fun n => hashable n = true) ns).
      { rewrite Forall_forall in *. auto. }
      destruct (shortest_path_for_spec p ns visited q Hnsh Hnd)
        as (v' & q' & Hrun & Hnd' & Hv & Hl & Hhq).
      rewrite Hns. simpl. rewrite Hrun. simpl.
      apply IH.
      * now apply Hhq.
      * exact Hnd'.
      * intros x Hx. apply Hv in Hx. apply in_app_or in Hx.
        destruct Hx as [Hx | Hx]; [right; now apply Hsub | now apply Hincl].
      * simpl in Hlen. lia.
Qed.

(** [shortest_path] returns on every graph of the data model. *)
Lemma shortest_path_total (g : Graph) (start end_ : value) :
  graph_inv g -> hashable start = true -> hashable end_ = true ->
  exists path, shortest_path g start end_ = Val path.
Proof.
  intros Hinv Hs He. unfold shortest_path, dict_contains, set_add.
  rewrite Hs, He. cbn [bind].
  destruct (is_key start (adj_list g)); cbn [negb]; [| now exists []].
  cbn [bind].
  destruct (is_key end_ (adj_list g)); cbn [negb]; [| now exists []].
  cbn [bind list_contains existsb].
  apply (shortest_path_while_total g start end_
           (graph_inv_items_hashable g Hinv)).
  - now repeat constructor.
  - repeat constructor. simpl. tauto.
  - intros x [<- | []]. now left.
  - rewrite Nat.add_comm. apply le_n.
Qed.











(** * The claims *)

(** C1 (as amended).  The sample graph has seven edges on seven nodes and
    they close the cycle A-B-E-F-C-A, so [is_cyclic] is true on it, and
    stays true when D-G is added.  On the tree that the sample becomes
    without its edge E-F, [is_cyclic] is false, and true once D-G is
    added. *)
Theorem is_cyclic_sample_graph :
  (g <- build_sample_graph ;; is_cyclic g) = Val true /\
  (g <- with_edge_D_G build_sample_graph ;; is_cyclic g) = Val true /\
  (g <- build_graph tree_edges ;; is_cyclic g) = Val false /\
  (g <- with_edge_D_G (build_graph tree_edges) ;; is_cyclic g) = Val true.
Proof. repeat split; vm_compute; reflexivity. Qed.

(** C1 as the specification has it fails: on the sample graph [is_cyclic]
    does not return false. *)
Lemma is_cyclic_sample_graph_not_false :
  ~ ((g <- build_sample_graph ;; is_cyclic g) = Val false /\
     (g <- with_edge_D_G build_sample_graph ;; is_cyclic g) = Val true).
Proof. intros [H _]. vm_compute in H. discriminate H. Qed.

(** C2.  On the sample graph [shortest_path('A', 'G')] returns the path
    A, C, F, G: four nodes, the path carried by the first queue entry for
    G, which the scan of the neighbour lists in insertion order makes the
    one through C. *)
Theorem shortest_path_sample_graph :
  exists path,
    (g <- build_sample_graph ;; shortest_path g (VStr "A") (VStr "G"))
    = Val path /\
    path = [VStr "A"; VStr "C"; VStr "F"; VStr "G"] /\
    length path = 4.
Proof.
  exists [VStr "A"; VStr "C"; VStr "F"; VStr "G"].
  repeat split; vm_compute; reflexivity.
Qed.

(** C3.  For a start node that hashes and is not a key of the dictionary,
    [get_neighbors] gives the empty list and [bfs] returns the list with
    the start node alone; nothing is raised. *)
Theorem bfs_absent_start (g : Graph) (s : value) :
  hashable s = true ->
  is_key s (adj_list g) = false ->
  get_neighbors g s = Val [] /\ bfs g s = Val [s].
Proof.
  intros Hh Hk. pose proof (get_neighbors_absent g s Hh Hk) as Hn.
  split; [exact Hn |].
  unfold bfs, set_add. rewrite Hh. simpl.
  rewrite Hn. simpl. apply bfs_while_done.
Qed.

Lemma bfs_absent_start_witness :
  let g := snd (add_edge (VStr "A") (VStr "B") true empty_graph) in
  get_neighbors g (VStr "Z") = Val [] /\ bfs g (VStr "Z") = Val [VStr "Z"].
Proof.
  apply (bfs_absent_start
           (snd (add_edge (VStr "A") (VStr "B") true empty_graph))
           (VStr "Z")); reflexivity.
Defined.

(** C4.  For distinct nodes [a] and [b] of the allowed types (and
    hashable, as nodes are), [add_edge(a, b)] with the default
    [bidirectional=True] returns normally, and afterwards [b] is in
    [get_neighbors(a)] and [a] is in [get_neighbors(b)]. *)
Theorem add_edge_neighbors (g : Graph) (a b : value) :
  isinstance_T a = true -> isinstance_T b = true ->
  hashable a = true -> hashable b = true ->
  a <> b ->
  exists g' na nb,
    add_edge a b true g = (Val tt, g') /\
    get_neighbors g' a = Val na /\ In b na /\
    get_neighbors g' b = Val nb /\ In a nb.
Proof.
  intros Ia Ib Ha Hb Hne.
  destruct (add_edge_d_lists a b true (adj_list g) Hne)
    as [(na & Hna & Hinb) (nb & Hnb & Hina)].
  exists (mkGraph (add_edge_d a b true (adj_list g))), na, nb.
  split; [now apply add_edge_run |].
  unfold get_neighbors, dict_get. cbn [adj_list].
  rewrite Ha, Hb, Hna, Hnb. auto.
Qed.

Lemma add_edge_neighbors_witness :
  exists g' na nb,
    add_edge (VStr "A") (VInt 7) true empty_graph = (Val tt, g') /\
    get_neighbors g' (VStr "A") = Val na /\ In (VInt 7) na /\
    get_neighbors g' (VInt 7) = Val nb /\ In (VStr "A") nb.
Proof.
  apply (add_edge_neighbors empty_graph (VStr "A") (VInt 7));
    try reflexivity.
  discriminate.
Defined.

(** C5.  On a graph of the data model (a dictionary whose neighbour lists
    hold no node twice and no node that is not a key), every call of
    [add_node], of [add_edge] with either value of [bidirectional], and of
    [remove_node] leaves a graph in which every node of a neighbour list is
    a key; this also when the call raises. *)
Theorem mutations_keep_no_dangling (g : Graph) :
  graph_inv g ->
  (forall node, no_dangling (snd (add_node node g))) /\
  (forall a b bidirectional,
      no_dangling (snd (add_edge a b bidirectional g))) /\
  (forall node, no_dangling (snd (remove_node node g))).
Proof.
  intros H. repeat split; intros.
  - now apply add_node_inv.
  - now apply add_edge_inv.
  - now apply remove_node_inv.
Qed.

Lemma mutations_keep_no_dangling_witness :
  let g := snd (add_edge (VStr "A") (VStr "B") true empty_graph) in
  graph_inv g /\
  no_dangling (snd (add_node (VStr "C") g)) /\
  no_dangling (snd (add_edge (VStr "B") (VStr "C") false g)) /\
  no_dangling (snd (remove_node (VStr "A") g)).
Proof.
  assert (H : graph_inv
                (snd (add_edge (VStr "A") (VStr "B") true empty_graph))).
  { apply reachable_inv. apply reach_add_edge. apply reach_empty. }
  split; [exact H |].
  destruct (mutations_keep_no_dangling _ H) as (H1 & H2 & H3).
  split; [apply H1 | split; [apply H2 | apply H3]].
Defined.

(** C6.  For a node [a] of an allowed type, [add_edge(a, a)] raises the
    self-loop error ([ValueError("Self loops are not allowed")]) whatever
    [bidirectional] is; the call itself raises it, before the graph is
    touched. *)
Theorem add_edge_self_loop (g : Graph) (a : value) (bidirectional : bool) :
  isinstance_T a = true ->
  add_edge a a bidirectional g = (Raise SelfLoopError, g).
Proof.
  intros Ia. unfold add_edge. rewrite Ia. simpl.
  now rewrite value_eqb_refl.
Qed.

Lemma add_edge_self_loop_witness :
  add_edge (VTuple [VInt 1; VStr "x"]) (VTuple [VInt 1; VStr "x"]) true
    empty_graph
  = (Raise SelfLoopError, empty_graph).
Proof.
  apply (add_edge_self_loop empty_graph (VTuple [VInt 1; VStr "x"]) true).
  reflexivity.
Defined.

(** C7.  For distinct nodes [a] and [b] of the allowed types, a second
    call [add_edge(a, b)] returns normally and leaves the graph of the
    first call: the same dictionary, so the same neighbour list for every
    node. *)
Theorem add_edge_idempotent (g : Graph) (a b : value)
    (bidirectional : bool) :
  isinstance_T a = true -> isinstance_T b = true ->
  hashable a = true -> hashable b = true ->
  a <> b ->
  exists g1,
    add_edge a b bidirectional g = (Val tt, g1) /\
    add_edge a b bidirectional g1 = (Val tt, g1) /\
    forall y,
      get_neighbors (snd (add_edge a b bidirectional g1)) y
      = get_neighbors g1 y.
Proof.
  intros Ia Ib Ha Hb Hne.
  exists (mkGraph (add_edge_d a b bidirectional (adj_list g))).
  assert (H2 : add_edge a b bidirectional
                 (mkGraph (add_edge_d a b bidirectional (adj_list g)))
               = (Val tt,
                  mkGraph (add_edge_d a b bidirectional (adj_list g)))).
  { rewrite add_edge_run by assumption. cbn [adj_list].
    now rewrite add_edge_d_idempotent. }
  split; [now apply add_edge_run |]. split; [exact H2 |].
  intros y. now rewrite H2.
Qed.

Lemma add_edge_idempotent_witness :
  exists g1,
    add_edge (VStr "A") (VStr "B") true empty_graph = (Val tt, g1) /\
    add_edge (VStr "A") (VStr "B") true g1 = (Val tt, g1) /\
    forall y,
      get_neighbors (snd (add_edge (VStr "A") (VStr "B") true g1)) y
      = get_neighbors g1 y.
Proof.
  apply (add_edge_idempotent empty_graph (VStr "A") (VStr "B") true);
    try reflexivity.
  discriminate.
Defined.

(** C8.  On a graph of the data model, [remove_node(x)] for a node [x]
    that hashes returns normally; afterwards [x] is not a key, and for
    every remaining node [y] the list [get_neighbors(y)] does not contain
    [x]; when [x] was not a key the graph is unchanged. *)
Theorem remove_node_purges (g : Graph) (x : value) :
  graph_inv g ->
  hashable x = true ->
  exists g',
    remove_node x g = (Val tt, g') /\
    is_key x (adj_list g') = false /\
    (forall y, In y (keys (adj_list g')) ->
       exists ns, get_neighbors g' y = Val ns /\ ~ In x ns) /\
    (is_key x (adj_list g) = false -> g' = g).
Proof.
  intros Hinv Hx.
  exists (mkGraph (remove_node_d x (adj_list g))).
  assert (Hinv0 : graph_inv (mkGraph (adj_list g)))
    by now rewrite graph_eta.
  destruct (remove_node_d_spec x (adj_list g) Hinv0) as [Hk Hpurged].
  pose proof (remove_node_d_inv x Hinv0) as Hinv'.
  split; [| split; [exact Hk | split]].
  - rewrite remove_node_run by apply Hinv. now rewrite Hx.
  - intros y Hy. cbn [adj_list] in *.
    assert (Hyh : hashable y = true).
    { destruct Hinv' as [[_ Hh] _ _]. simpl in Hh.
      rewrite Forall_forall in Hh. now apply Hh. }
    apply is_key_In in Hy. destruct (is_key_lookup _ _ Hy) as [ns Hns].
    exists ns. unfold get_neighbors, dict_get. cbn [adj_list].
    rewrite Hyh, Hns. split; [reflexivity |].
    apply (Hpurged y). now apply lookup_Some_In.
  - intros Habs. unfold remove_node_d. rewrite Habs. apply graph_eta.
Qed.

Lemma remove_node_purges_witness :
  let g := snd (add_edge (VStr "A") (VStr "B") true empty_graph) in
  graph_inv g /\
  exists g',
    remove_node (VStr "A") g = (Val tt, g') /\
    is_key (VStr "A") (adj_list g') = false /\
    (forall y, In y (keys (adj_list g')) ->
       exists ns, get_neighbors g' y = Val ns /\ ~ In (VStr "A") ns) /\
    (is_key (VStr "A") (adj_list g) = false -> g' = g).
Proof.
  assert (H : graph_inv
                (snd (add_edge (VStr "A") (VStr "B") true empty_graph))).
  { apply reachable_inv. apply reach_add_edge. apply reach_empty. }
  split; [exact H |].
  apply (remove_node_purges _ (VStr "A") H). reflexivity.
Defined.

(** C10.  On a graph of the data model and for a node [x] that hashes,
    [has_path(x, x)] returns true, whether or not [x] is a key: [bfs]
    returns, and its order holds the start node. *)
Theorem has_path_reflexive (g : Graph) (x : value) :
  graph_inv g ->
  hashable x = true ->
  has_path g x x = Val true.
Proof.
  intros Hinv Hx.
  destruct (bfs_total g x Hx (graph_inv_items_hashable g Hinv))
    as (order & Hrun & Hin).
  unfold has_path. rewrite Hrun. simpl.
  apply list_contains_In in Hin. now rewrite Hin.
Qed.

Lemma has_path_reflexive_witness :
  let g := snd (add_edge (VStr "A") (VStr "B") true empty_graph) in
  graph_inv g /\
  is_key (VStr "Z") (adj_list g) = false /\
  has_path g (VStr "Z") (VStr "Z") = Val true.
Proof.
  assert (H : graph_inv
                (snd (add_edge (VStr "A") (VStr "B") true empty_graph))).
  { apply reachable_inv. apply reach_add_edge. apply reach_empty. }
  split; [exact H |]. split; [reflexivity |].
  apply (has_path_reflexive _ (VStr "Z") H). reflexivity.
Defined.

(** C9 (as amended).  [get_neighbors] does not change the graph, and for a
    node that is not a key it returns a new empty list, which the caller
    may change without effect on the graph.  For a node that is a key it
    returns the list object that the dictionary stores, not a copy: any
    change [f] the caller makes to the returned list in place is a change
    of the neighbour list the graph has for that node. *)
Theorem get_neighbors_shares_list (st : Store.State) (node : value) :
  Store.state_ok st ->
  hashable node = true ->
  exists r st1,
    Store.get_neighbors node st = (Val r, st1) /\
    Store.view st1 = Store.view st /\
    get_neighbors (Store.view st) node = Val (Store.deref r st1) /\
    (is_key node (Store.adj_refs st) = true ->
     lookup node (Store.adj_refs st1) = Some r /\
     forall f,
       Store.view (snd (Store.list_mutate r f st1))
       = mkGraph (update node (f (Store.deref r st1))
                    (adj_list (Store.view st)))) /\
    (is_key node (Store.adj_refs st) = false ->
     forall f, Store.view (snd (Store.list_mutate r f st1)) = Store.view st).
Proof.
  intros Hok Hh. destruct st as [objs refs].
  pose proof (state_ok_ref_bound (Store.mkState objs refs)) as Hbound.
  destruct Hok as [Hnd Hb]. simpl in *.
  assert (Hview : Store.view (Store.mkState (objs ++ [[]]) refs)
                  = Store.view (Store.mkState objs refs)).
  { apply view_ext. intros r _. apply nth_app_empty. }
  rewrite get_neighbors_run. simpl. rewrite Hh.
  unfold get_neighbors, dict_get. rewrite Hh, lookup_view. simpl.
  unfold is_key.
  destruct (lookup node refs) as [r |] eqn:E; simpl.
  - exists r, (Store.mkState (objs ++ [[]]) refs).
    assert (Hr : r < length objs).
    { apply Hbound; [now split |]. now apply (lookup_ref_In node). }
    split; [reflexivity |]. split; [exact Hview |].
    split; [| split].
    + unfold Store.deref. simpl. now rewrite nth_app_empty.
    + intros _. split; [exact E |].
      intros f. unfold Store.list_mutate. simpl.
      apply (view_update node r); try assumption.
      * apply nth_set_nth_same. rewrite length_app. simpl. lia.
      * intros r' Hne. rewrite nth_set_nth_other by congruence.
        apply nth_app_empty.
    + discriminate.
  - exists (length objs), (Store.mkState (objs ++ [[]]) refs).
    split; [reflexivity |]. split; [exact Hview |].
    split; [| split].
    + unfold Store.deref. simpl. rewrite app_nth2 by lia.
      now rewrite Nat.sub_diag.
    + discriminate.
    + intros _ f. unfold Store.list_mutate. simpl.
      apply view_ext. intros r' Hin.
      assert (Hr' : r' < length objs)
        by (apply Hbound; [now split | exact Hin]).
      rewrite nth_set_nth_other by lia. apply nth_app_empty.
Qed.

Lemma get_neighbors_shares_list_witness :
  let st := snd (Store.add_edge (VStr "A") (VStr "B") true
                   Store.empty_state) in
  Store.state_ok st /\
  exists r st1,
    Store.get_neighbors (VStr "A") st = (Val r, st1) /\
    Store.view st1 = Store.view st /\
    get_neighbors (Store.view st) (VStr "A") = Val (Store.deref r st1) /\
    (is_key (VStr "A") (Store.adj_refs st) = true ->
     lookup (VStr "A") (Store.adj_refs st1) = Some r /\
     forall f,
       Store.view (snd (Store.list_mutate r f st1))
       = mkGraph (update (VStr "A") (f (Store.deref r st1))
                    (adj_list (Store.view st)))) /\
    (is_key (VStr "A") (Store.adj_refs st) = false ->
     forall f, Store.view (snd (Store.list_mutate r f st1)) = Store.view st).
Proof.
  assert (H : Store.state_ok
                (snd (Store.add_edge (VStr "A") (VStr "B") true
                        Store.empty_state))).
  { split.
    - vm_compute.
      constructor; [intros [E | []]; discriminate E |].
      constructor; [intros [] | constructor].
    - simpl. repeat constructor. }
  split; [exact H |].
  apply (get_neighbors_shares_list _ (VStr "A") H). reflexivity.
Defined.

(** C9 as the specification has it fails: after [add_edge('A', 'B')], the
    list that [get_neighbors('A')] returns is the stored one, and appending
    'Z' to it changes the graph: its list for 'A' becomes B, Z. *)
Lemma get_neighbors_no_copy :
  let st := snd (Store.add_edge (VStr "A") (VStr "B") true
                   Store.empty_state) in
  exists r st1,
    Store.get_neighbors (VStr "A") st = (Val r, st1) /\
    Store.view (snd (Store.list_append r (VStr "Z") st1)) <> Store.view st /\
    get_neighbors (Store.view (snd (Store.list_append r (VStr "Z") st1)))
      (VStr "A")
    = Val [VStr "B"; VStr "Z"].
Proof.
  eexists. eexists. split; [vm_compute; reflexivity |].
  split; [vm_compute; discriminate | vm_compute; reflexivity].
Qed.

(** * Further properties *)

(** ** Edges under the mutating methods *)

Lemma has_edge_get_neighbors (g : Graph) (a b : value) :
  hashable a = true ->
  (has_edge g a b <->
   exists ns, get_neighbors g a = Val ns /\ In b ns).
Proof.
  intros Ha. unfold has_edge, get_neighbors, dict_get. rewrite Ha.
  destruct (lookup a (adj_list g)) as [ns |].
  - split; intros (ns' & E & Hin); exists ns'; split; congruence.
  - split; intros (ns' & E & Hin); [discriminate |].
    injection E as <-. destruct Hin.
Qed.

Lemma lookup_delete_other (V : Type) (k k' : value) (d : list (value * V)) :
  k <> k' -> lookup k' (delete k d) = lookup k' d.
Proof.
  intros Hne. induction d as [| [k0 v0] d IH]; simpl; [reflexivity |].
  destruct (value_eqb_spec k0 k) as [-> | H0]; simpl.
  - now rewrite (value_eqb_neq Hne).
  - now rewrite IH.
Qed.

Lemma lookup_delete_same (V : Type) (k : value) (d : list (value * V)) :
  NoDup (keys d) -> lookup k (delete k d) = None.
Proof.
  intros Hnd. destruct (lookup k (delete k d)) as [v |] eqn:E;
    [| reflexivity].
  exfalso. apply lookup_Some_In in E.
  assert (H : In k (keys (delete k d))).
  { change k with (fst (k, v)). unfold keys. now apply in_map. }
  apply In_keys_delete in H; [| exact Hnd]. tauto.
Qed.

Lemma lookup_unlink_all (x k : value) (d : dict) :
  lookup k (unlink_all x d) = option_map (remove_first x) (lookup k d).
Proof.
  induction d as [| [k0 ns] d IH]; simpl; [reflexivity |].
  destruct (value_eqb k0 k); [reflexivity | exact IH].
Qed.

Lemma In_remove_first_iff (x y : value) (l : list value) :
  NoDup l -> (In y (remove_first x l) <-> In y l /\ y <> x).
Proof.
  intros Hnd. split.
  - intros H. split; [eapply In_remove_first; eassumption |].
    intros ->. revert H. now apply NoDup_remove_first.
  - intros [Hin Hne]. induction l as [| z l IH]; simpl in *; [tauto |].
    inversion Hnd; subst.
    destruct (value_eqb_spec z x) as [-> | Hz].
    + destruct Hin as [E | Hin]; [congruence | exact Hin].
    + destruct Hin as [E | Hin]; [now left | right; auto].
Qed.

Lemma has_edge_add_node_d (node a b : value) (d : dict) :
  has_edge (mkGraph (add_node_d node d)) a b <-> has_edge (mkGraph d) a b.
Proof.
  unfold add_node_d, has_edge. cbn [adj_list].
  destruct (is_key node d) eqn:E; [tauto |].
  destruct (value_eq_dec node a) as [-> | Hne].
  - rewrite lookup_update_same. unfold is_key in E.
    destruct (lookup a d); [discriminate |].
    split; intros (ns & H & Hin); [| discriminate].
    injection H as <-. destruct Hin.
  - now rewrite lookup_update_other.
Qed.

Lemma has_edge_link (a b x y : value) (d : dict) :
  has_edge (mkGraph (link a b d)) x y <->
  has_edge (mkGraph d) x y \/ (x = a /\ y = b /\ is_key a d = true).
Proof.
  unfold link, has_edge, is_key. cbn [adj_list].
  destruct (lookup a d) as [ns |] eqn:Ea.
  - destruct (list_contains b ns) eqn:Eb.
    + apply list_contains_In in Eb. split; [tauto |].
      intros [H | (-> & -> & _)]; [exact H | now exists ns].
    + destruct (value_eq_dec a x) as [-> | Hne].
      * rewrite lookup_update_same, Ea. split.
        -- intros (ns' & [= <-] & Hin). apply in_app_or in Hin.
           destruct Hin as [Hin | [<- | []]]; [left; now exists ns | tauto].
        -- intros [(ns' & [= <-] & Hin) | (_ & -> & _)];
             exists (ns ++ [b]); (split; [reflexivity |]);
             apply in_or_app; [now left | right; now left].
      * rewrite lookup_update_other by exact Hne. split; [tauto |].
        intros [H | (-> & _)]; [exact H | congruence].
  - split; [tauto |]. intros [H | (_ & _ & H)]; [exact H | discriminate].
Qed.

Lemma has_edge_add_edge_d (a b x y : value) (bidirectional : bool)
    (d : dict) :
  has_edge (mkGraph (add_edge_d a b bidirectional d)) x y <->
  has_edge (mkGraph d) x y \/ (x = a /\ y = b) \/
  (bidirectional = true /\ x = b /\ y = a).
Proof.
  unfold add_edge_d.
  set (d2 := add_node_d b (add_node_d a d)).
  assert (Ka : is_key a d2 = true)
    by (apply is_key_add_node_d, is_key_add_node_d_same).
  assert (Kb : is_key b d2 = true) by apply is_key_add_node_d_same.
  assert (H2 : forall u v,
             has_edge (mkGraph d2) u v <-> has_edge (mkGraph d) u v).
  { intros u v. unfold d2. now rewrite !has_edge_add_node_d. }
  destruct bidirectional.
  - rewrite has_edge_link, has_edge_link, H2, is_key_link, Ka, Kb.
    intuition congruence.
  - rewrite has_edge_link, H2, Ka. intuition congruence.
Qed.

Lemma has_edge_remove_node_d (x u v : value) (d : dict) :
  graph_inv (mkGraph d) ->
  (has_edge (mkGraph (remove_node_d x d)) u v <->
   has_edge (mkGraph d) u v /\ u <> x /\ v <> x).
Proof.
  intros [[Hnd Hh] Hl Hc]. unfold remove_node_d, has_edge.
  unfold lists_nodup, no_dangling in *. cbn [adj_list] in *.
  rewrite Forall_forall in Hl.
  destruct (is_key x d) eqn:E; cbn [adj_list].
  - destruct (value_eq_dec x u) as [-> | Hne].
    + rewrite lookup_delete_same by now rewrite keys_unlink_all.
      split; [intros (ns & H & _); discriminate | tauto].
    + rewrite lookup_delete_other by exact Hne. rewrite lookup_unlink_all.
      destruct (lookup u d) as [ns |] eqn:Eu; simpl.
      * assert (Hns : NoDup ns)
          by (apply (Hl (u, ns)); now apply lookup_Some_In).
        split.
        -- intros (ns' & [= <-] & Hin).
           apply In_remove_first_iff in Hin; [| exact Hns].
           split; [now exists ns | split; [congruence | tauto]].
        -- intros ((ns' & [= <-] & Hin) & _ & Hv).
           exists (remove_first x ns). split; [reflexivity |].
           now apply In_remove_first_iff.
      * split; [intros (ns & H & _); discriminate |].
        intros ((ns & H & _) & _). discriminate.
  - apply is_key_false in E. split; [| tauto].
    intros (ns & H & Hin). split; [now exists ns |]. split.
    + intros ->. apply E. apply is_key_In. unfold is_key. now rewrite H.
    + intros ->. apply E. apply (Hc u ns); [| exact Hin].
      now apply lookup_Some_In.
Qed.

Lemma add_node_d_no_self_loops (node : value) (d : dict) :
  no_self_loops (mkGraph d) -> no_self_loops (mkGraph (add_node_d node d)).
Proof.
  unfold no_self_loops, add_node_d. cbn [adj_list]. intros H k ns Hin.
  destruct (is_key node d); [now apply H |].
  apply In_update in Hin. destruct Hin as [[-> ->] | Hin]; [tauto |].
  now apply H.
Qed.

Lemma link_no_self_loops (a b : value) (d : dict) :
  a <> b ->
  no_self_loops (mkGraph d) -> no_self_loops (mkGraph (link a b d)).
Proof.
  unfold no_self_loops, link. cbn [adj_list]. intros Hne H k ns Hin.
  destruct (lookup a d) as [na |] eqn:Ea; [| now apply H].
  destruct (list_contains b na); [now apply H |].
  apply In_update in Hin. destruct Hin as [[-> ->] | Hin]; [| now apply H].
  intros Hk. apply in_app_or in Hk. destruct Hk as [Hk | [E | []]].
  - apply (H a na); [now apply lookup_Some_In | exact Hk].
  - congruence.
Qed.

Lemma remove_node_d_no_self_loops (node : value) (d : dict) :
  no_self_loops (mkGraph d) ->
  no_self_loops (mkGraph (remove_node_d node d)).
Proof.
  unfold no_self_loops, remove_node_d. cbn [adj_list]. intros H k ns Hin.
  destruct (is_key node d); [| now apply H].
  apply In_delete in Hin. apply In_unlink_all in Hin.
  destruct Hin as (ns0 & Hin & ->). intros Hk.
  apply (H k ns0 Hin). eapply In_remove_first; eassumption.
Qed.

(** [add_edge_cases] once more, with what the third case knows. *)
Lemma add_edge_cases_distinct (a b : value) (bidirectional : bool)
    (g : Graph) :
  snd (add_edge a b bidirectional g) = g \/
  (hashable a = true /\
   snd (add_edge a b bidirectional g)
   = mkGraph (add_node_d a (adj_list g))) \/
  (hashable a = true /\ hashable b = true /\ a <> b /\
   snd (add_edge a b bidirectional g)
   = mkGraph (add_edge_d a b bidirectional (adj_list g))).
Proof.
  destruct (value_eq_dec a b) as [-> | Hne].
  - left. unfold add_edge.
    destruct (negb (isinstance_T b && isinstance_T b)); [reflexivity |].
    now rewrite value_eqb_refl.
  - destruct (add_edge_cases a b bidirectional g)
      as [H | [H | (Ha & Hb & H)]].
    + now left.
    + right. now left.
    + right. right. repeat split; assumption.
Qed.

Lemma reachable_no_self_loops (g : Graph) :
  reachable g -> no_self_loops g.
Proof.
  induction 1 as [| node g _ IH | a b bi g _ IH | node g Hr IH].
  - intros k ns [].
  - rewrite add_node_run. destruct (hashable node); [| exact IH].
    apply add_node_d_no_self_loops. now rewrite graph_eta.
  - destruct (add_edge_cases_distinct a b bi g)
      as [-> | [[_ ->] | (_ & _ & Hne & ->)]]; [exact IH | |].
    + apply add_node_d_no_self_loops. now rewrite graph_eta.
    + unfold add_edge_d.
      assert (H2 : no_self_loops
                     (mkGraph (add_node_d b (add_node_d a (adj_list g)))))
        by (do 2 apply add_node_d_no_self_loops; now rewrite graph_eta).
      destruct bi.
      * apply link_no_self_loops; [congruence |].
        now apply link_no_self_loops.
      * now apply link_no_self_loops.
  - rewrite remove_node_run by (apply reachable_inv, Hr).
    destruct (hashable node); [| exact IH].
    apply remove_node_d_no_self_loops. now rewrite graph_eta.
Qed.

(** X1.  Whatever sequence of [add_node], [add_edge] and [remove_node]
    calls made a graph, also with calls that raised: its keys are distinct
    and hash, no neighbour list holds a node twice, every neighbour is a
    key, and no node is its own neighbour. *)
Theorem reachable_well_formed (g : Graph) :
  reachable g ->
  keys_ok g /\ lists_nodup g /\ no_dangling g /\ no_self_loops g.
Proof.
  intros H. destruct (reachable_inv H) as [H1 H2 H3].
  repeat split; try assumption; try apply H1.
  now apply reachable_no_self_loops.
Qed.

Lemma reachable_well_formed_witness :
  let g := snd (remove_node (VStr "B")
                  (snd (add_edge (VStr "A") (VStr "B") false
                          (snd (add_node (VInt 3) empty_graph))))) in
  keys_ok g /\ lists_nodup g /\ no_dangling g /\ no_self_loops g.
Proof.
  apply (reachable_well_formed
           (snd (remove_node (VStr "B")
                   (snd (add_edge (VStr "A") (VStr "B") false
                           (snd (add_node (VInt 3) empty_graph))))))).
  apply reach_remove_node, reach_add_edge, reach_add_node, reach_empty.
Defined.

Lemma undirected_reachable (g : Graph) : undirected g -> reachable g.
Proof. induction 1; now constructor. Qed.

Lemma has_edge_eta (g : Graph) (a b : value) :
  has_edge (mkGraph (adj_list g)) a b <-> has_edge g a b.
Proof. now rewrite graph_eta. Qed.

Lemma undirected_is_symmetric (g : Graph) :
  undirected g -> symmetric g.
Proof.
  induction 1 as [| node g _ IH | a b g _ IH | node g Hu IH].
  - intros a b (ns & H & _). discriminate H.
  - rewrite add_node_run. destruct (hashable node); [| exact IH].
    intros x y. cbn [snd]. rewrite !has_edge_add_node_d, !has_edge_eta.
    apply IH.
  - destruct (add_edge_cases_distinct a b true g)
      as [-> | [[_ ->] | (_ & _ & Hne & ->)]]; [exact IH | |].
    + intros x y. rewrite !has_edge_add_node_d, !has_edge_eta. apply IH.
    + intros x y. rewrite !has_edge_add_edge_d, !has_edge_eta.
      intros [H | [[-> ->] | (_ & -> & ->)]]; [left; now apply IH | |].
      * right. right. auto.
      * right. left. auto.
  - pose proof (reachable_inv (undirected_reachable g Hu)) as Hinv.
    rewrite remove_node_run by apply Hinv.
    destruct (hashable node); [| exact IH].
    intros x y. cbn [snd].
    rewrite !has_edge_remove_node_d by now rewrite graph_eta.
    rewrite !has_edge_eta. intros (H & Hx & Hy).
    split; [now apply IH | tauto].
Qed.

(** X2.  A graph made with [add_node], [add_edge] with
    [bidirectional=True] and [remove_node] only has symmetric adjacency:
    when [b] is in the neighbour list of [a], [a] is in that of [b]. *)
Theorem undirected_symmetric (g : Graph) : undirected g -> symmetric g.
Proof. apply undirected_is_symmetric. Qed.

Lemma undirected_symmetric_witness :
  symmetric
    (snd (remove_node (VStr "C")
            (snd (add_edge (VStr "B") (VStr "C") true
                    (snd (add_edge (VStr "A") (VStr "B") true
                            empty_graph)))))).
Proof.
  apply undirected_symmetric.
  apply undirected_remove_node, undirected_add_edge, undirected_add_edge,
    undirected_empty.
Defined.

(** X3.  [add_edge(a, b, bidirectional)] for distinct hashable nodes of
    the allowed types adds the edge from [a] to [b], with [bidirectional]
    also the edge from [b] to [a], and changes no other edge: nothing is
    lost, and a one-directional call adds nothing to the list of [b]. *)
Theorem add_edge_edges (g : Graph) (a b : value) (bidirectional : bool) :
  isinstance_T a = true -> isinstance_T b = true ->
  hashable a = true -> hashable b = true ->
  a <> b ->
  exists g',
    add_edge a b bidirectional g = (Val tt, g') /\
    forall x y,
      has_edge g' x y <->
      has_edge g x y \/ (x = a /\ y = b) \/
      (bidirectional = true /\ x = b /\ y = a).
Proof.
  intros Ia Ib Ha Hb Hne.
  exists (mkGraph (add_edge_d a b bidirectional (adj_list g))).
  split; [now apply add_edge_run |].
  intros x y. now rewrite has_edge_add_edge_d, has_edge_eta.
Qed.

Lemma add_edge_edges_witness :
  exists g',
    add_edge (VStr "A") (VStr "B") false empty_graph = (Val tt, g') /\
    forall x y,
      has_edge g' x y <->
      has_edge empty_graph x y \/ (x = VStr "A" /\ y = VStr "B") \/
      (false = true /\ x = VStr "B" /\ y = VStr "A").
Proof.
  apply (add_edge_edges empty_graph (VStr "A") (VStr "B") false);
    try reflexivity.
  discriminate.
Defined.

(** X4.  On a graph of the data model, [remove_node(x)] removes the key
    [x] and the edges from and to [x], and nothing else: every other key
    stays, and every edge between two other nodes stays. *)
Theorem remove_node_edges (g : Graph) (x : value) :
  graph_inv g ->
  hashable x = true ->
  exists g',
    remove_node x g = (Val tt, g') /\
    (forall k, In k (keys (adj_list g')) <->
               In k (keys (adj_list g)) /\ k <> x) /\
    (forall u v, has_edge g' u v <-> has_edge g u v /\ u <> x /\ v <> x).
Proof.
  intros Hinv Hx.
  exists (mkGraph (remove_node_d x (adj_list g))).
  assert (Hinv0 : graph_inv (mkGraph (adj_list g)))
    by now rewrite graph_eta.
  split; [| split].
  - rewrite remove_node_run by apply Hinv. now rewrite Hx.
  - intros k. cbn [adj_list]. unfold remove_node_d.
    destruct (is_key x (adj_list g)) eqn:E.
    + rewrite In_keys_delete, keys_unlink_all.
      * tauto.
      * rewrite keys_unlink_all. apply Hinv.
    + apply is_key_false in E. split; [| tauto].
      intros H. split; [exact H | congruence].
  - intros u v. rewrite has_edge_remove_node_d by exact Hinv0.
    now rewrite has_edge_eta.
Qed.

Lemma remove_node_edges_witness :
  let g := snd (add_edge (VStr "A") (VStr "B") true empty_graph) in
  exists g',
    remove_node (VStr "A") g = (Val tt, g') /\
    (forall k, In k (keys (adj_list g')) <->
               In k (keys (adj_list g)) /\ k <> VStr "A") /\
    (forall u v, has_edge g' u v <->
                 has_edge g u v /\ u <> VStr "A" /\ v <> VStr "A").
Proof.
  apply (remove_node_edges
           (snd (add_edge (VStr "A") (VStr "B") true empty_graph))
           (VStr "A")).
  - apply reachable_inv, reach_add_edge, reach_empty.
  - reflexivity.
Defined.

(** ** Outcomes of [add_edge] and [add_node] *)

Lemma add_edge_self_loop_run (g : Graph) (a : value) (bidirectional : bool) :
  isinstance_T a = true ->
  add_edge a a bidirectional g = (Raise SelfLoopError, g).
Proof.
  intros Ia. unfold add_edge. rewrite Ia. cbn [andb negb].
  now rewrite value_eqb_refl.
Qed.

(** X5.  [add_edge] raises in three cases and in this order: a node that
    is not an int, str or tuple ([TypeError], the specification's
    [InvalidNodeType]), equal nodes ([ValueError], its [SelfLoopError]),
    a tuple that does not hash ([TypeError] from the dictionary).  It
    raises nothing else, and it leaves the graph as it was when it raises,
    with one exception: when only the second node fails to hash, the
    first node has been added already. *)
Theorem add_edge_outcome (g : Graph) (a b : value) (bidirectional : bool) :
  fst (add_edge a b bidirectional g)
  = (if negb (isinstance_T a && isinstance_T b) then Raise InvalidNodeType
     else if value_eqb a b then Raise SelfLoopError
     else if hashable a && hashable b then Val tt
     else Raise unhashable) /\
  (fst (add_edge a b bidirectional g) <> Val tt ->
   snd (add_edge a b bidirectional g) = g \/
   (hashable a = true /\ hashable b = false /\
    snd (add_edge a b bidirectional g) = snd (add_node a g))).
Proof.
  destruct (isinstance_T a && isinstance_T b) eqn:Ht; cbn [negb].
  - apply andb_true_iff in Ht. destruct Ht as [Ia Ib].
    destruct (value_eqb_spec a b) as [E | Hne].
    + subst b. rewrite (add_edge_self_loop_run g a bidirectional Ia).
      split; [reflexivity | now left].
    + destruct (hashable a) eqn:Ha; [destruct (hashable b) eqn:Hb |];
        cbn [andb].
      * rewrite add_edge_run by assumption. split; [reflexivity |].
        intros H. now contradiction H.
      * assert (E : add_edge a b bidirectional g
                    = (Raise unhashable, snd (add_node a g))).
        { unfold add_edge. rewrite Ia, Ib, (value_eqb_neq Hne).
          cbn [andb negb]. unfold mbind at 1. rewrite add_node_run, Ha.
          unfold mbind at 1. now rewrite add_node_run, Hb. }
        rewrite E. split; [reflexivity |]. intros _. right. now repeat split.
      * assert (E : add_edge a b bidirectional g = (Raise unhashable, g)).
        { unfold add_edge. rewrite Ia, Ib, (value_eqb_neq Hne).
          cbn [andb negb]. unfold mbind at 1. now rewrite add_node_run, Ha. }
        rewrite E. split; [reflexivity | now left].
  - assert (E : add_edge a b bidirectional g = (Raise InvalidNodeType, g)).
    { unfold add_edge. now rewrite Ht. }
    rewrite E. split; [reflexivity | now left].
Qed.

(** X6.  [add_node(n)] for a node that hashes never raises, whatever the
    type of [n]; the keys afterwards are the keys before and [n]; no edge
    is added or lost; and a second call changes nothing.  For a value that
    does not hash it raises [TypeError] and leaves the graph as it was. *)
Theorem add_node_effect (g : Graph) (n : value) :
  (hashable n = true ->
   exists g',
     add_node n g = (Val tt, g') /\
     (forall k, In k (keys (adj_list g')) <->
                In k (keys (adj_list g)) \/ k = n) /\
     (forall x y, has_edge g' x y <-> has_edge g x y) /\
     add_node n g' = (Val tt, g')) /\
  (hashable n = false -> add_node n g = (Raise unhashable, g)).
Proof.
  split; intros Hn; rewrite add_node_run, Hn; [| reflexivity].
  exists (mkGraph (add_node_d n (adj_list g))).
  split; [reflexivity |]. split; [| split].
  - intros k. cbn [adj_list]. unfold add_node_d.
    destruct (is_key n (adj_list g)) eqn:E.
    + apply is_key_In in E. split; [tauto | intros [H | ->]; assumption].
    + rewrite In_keys_update. tauto.
  - intros x y. now rewrite has_edge_add_node_d, has_edge_eta.
  - rewrite add_node_run, Hn. cbn [adj_list].
    now rewrite (add_node_d_noop n _ (is_key_add_node_d_same n _)).
Qed.

(** ** Round trips *)

Lemma unlink_all_id (x : value) (d : dict) :
  (forall k ns, In (k, ns) d -> ~ In x ns) -> unlink_all x d = d.
Proof.
  induction d as [| [k ns] d IH]; intros H; simpl; [reflexivity |].
  rewrite remove_first_notin by (apply (H k ns); now left).
  f_equal. apply IH. intros k' ns' Hin. apply (H k' ns'). now right.
Qed.

Lemma delete_app_last (x : value) (v : list value) (d : dict) :
  ~ In x (keys d) -> delete x (d ++ [(x, v)]) = d.
Proof.
  induction d as [| [k ns] d IH]; simpl; intros H.
  - now rewrite value_eqb_refl.
  - destruct (value_eqb_spec k x) as [-> | Hne].
    + exfalso. apply H. now left.
    + f_equal. apply IH. intros Hin. apply H. now right.
Qed.

Lemma unlink_all_app (x : value) (d1 d2 : dict) :
  unlink_all x (d1 ++ d2) = unlink_all x d1 ++ unlink_all x d2.
Proof. apply map_app. Qed.

Lemma absent_not_neighbor (x : value) (d : dict) :
  no_dangling (mkGraph d) -> is_key x d = false ->
  forall k ns, In (k, ns) d -> ~ In x ns.
Proof.
  intros Hc Hx k ns Hin Hxn. apply is_key_false in Hx. apply Hx.
  apply (Hc k ns x Hin Hxn).
Qed.

(** X7.  On a graph of the data model, adding a node that is not there
    and removing it again gives back the graph as it was: same keys in the
    same order, same lists. *)
Theorem add_node_remove_node (g : Graph) (x : value) :
  graph_inv g ->
  hashable x = true ->
  is_key x (adj_list g) = false ->
  snd (remove_node x (snd (add_node x g))) = g.
Proof.
  intros Hinv Hx Habs.
  pose proof (add_node_inv x Hinv) as Hinv'.
  rewrite remove_node_run by apply Hinv'. rewrite Hx.
  rewrite add_node_run, Hx. cbn [snd adj_list].
  unfold add_node_d. rewrite Habs. rewrite update_absent by exact Habs.
  unfold remove_node_d.
  assert (Hk : is_key x (adj_list g ++ [(x, [])]) = true).
  { apply is_key_In. rewrite keys_app. apply in_or_app. right. now left. }
  rewrite Hk, unlink_all_app. cbn [unlink_all map fst snd remove_first].
  rewrite unlink_all_id.
  - rewrite delete_app_last by now apply is_key_false.
    apply graph_eta.
  - apply absent_not_neighbor; [| exact Habs].
    rewrite graph_eta. apply Hinv.
Qed.

Lemma add_node_remove_node_witness :
  let g := snd (add_edge (VStr "A") (VStr "B") true empty_graph) in
  snd (remove_node (VStr "C") (snd (add_node (VStr "C") g))) = g.
Proof.
  apply (add_node_remove_node
           (snd (add_edge (VStr "A") (VStr "B") true empty_graph))
           (VStr "C")).
  - apply reachable_inv, reach_add_edge, reach_empty.
  - reflexivity.
  - reflexivity.
Defined.

Lemma lookup_app_in (V : Type) (k : value) (d1 d2 : list (value * V)) :
  is_key k d1 = true -> lookup k (d1 ++ d2) = lookup k d1.
Proof.
  unfold is_key. induction d1 as [| [k' v'] d1 IH]; simpl; [discriminate |].
  destruct (value_eqb k' k); [reflexivity | exact IH].
Qed.

Lemma update_app_in (V : Type) (k : value) (v : V)
    (d1 d2 : list (value * V)) :
  is_key k d1 = true -> update k v (d1 ++ d2) = update k v d1 ++ d2.
Proof.
  unfold is_key. induction d1 as [| [k' v'] d1 IH]; simpl; [discriminate |].
  destruct (value_eqb k' k); [reflexivity |].
  intros H. now rewrite IH.
Qed.

Lemma unlink_all_update (x k : value) (v : list value) (d : dict) :
  unlink_all x (update k v d)
  = update k (remove_first x v) (unlink_all x d).
Proof.
  induction d as [| [k' v'] d IH]; simpl; [reflexivity |].
  destruct (value_eqb k' k); simpl; [reflexivity | now rewrite IH].
Qed.

Lemma remove_first_app_last (b : value) (l : list value) :
  ~ In b l -> remove_first b (l ++ [b]) = l.
Proof.
  induction l as [| y l IH]; simpl; intros H.
  - now rewrite value_eqb_refl.
  - destruct (value_eqb_spec y b) as [-> | Hne]; [tauto |].
    rewrite IH; tauto.
Qed.

(** What [add_edge(a, b)] makes of the dictionary when [b] is new: the
    entry of [b] comes last, and [b] is appended to the list of [a]. *)
Lemma add_edge_d_fresh (a b : value) (bidirectional : bool) (d : dict) :
  no_dangling (mkGraph d) -> a <> b -> is_key b d = false ->
  exists na,
    lookup a (add_node_d a d) = Some na /\ ~ In b na /\
    add_edge_d a b bidirectional d
    = update a (na ++ [b]) (add_node_d a d)
      ++ [(b, if bidirectional then [a] else [])].
Proof.
  intros Hc Hne Hb.
  set (d1 := add_node_d a d).
  assert (Ka : is_key a d1 = true) by apply is_key_add_node_d_same.
  assert (Kb : is_key b d1 = false).
  { unfold d1, add_node_d. destruct (is_key a d); [exact Hb |].
    now rewrite is_key_update_other. }
  destruct (is_key_lookup _ _ Ka) as [na Hna]. exists na.
  assert (Hbna : ~ In b na).
  { intros Hin. apply lookup_Some_In in Hna.
    unfold d1, add_node_d in Hna. destruct (is_key a d) eqn:Ea.
    - apply (absent_not_neighbor b d Hc Hb a na Hna Hin).
    - apply In_update in Hna. destruct Hna as [[_ ->] | Hna]; [destruct Hin |].
      apply (absent_not_neighbor b d Hc Hb a na Hna Hin). }
  split; [exact Hna |]. split; [exact Hbna |].
  unfold add_edge_d. fold d1.
  assert (E2 : add_node_d b d1 = d1 ++ [(b, [])]).
  { unfold add_node_d. rewrite Kb. now apply update_absent. }
  assert (E3 : link a b (d1 ++ [(b, [])])
               = update a (na ++ [b]) d1 ++ [(b, [])]).
  { unfold link. rewrite lookup_app_in by exact Ka. rewrite Hna.
    apply list_contains_false in Hbna. rewrite Hbna.
    now apply update_app_in. }
  rewrite E2, E3. destruct bidirectional; [| reflexivity].
  assert (Kb' : ~ In b (keys (update a (na ++ [b]) d1))).
  { rewrite keys_update_present by exact Ka. now apply is_key_false. }
  unfold link. rewrite lookup_app_notin by exact Kb'. simpl.
  rewrite value_eqb_refl. simpl. now apply update_app_notin.
Qed.

(** X8.  On a graph of the data model in which [b] is not a node,
    [add_edge(a, b)] followed by [remove_node(b)] leaves what
    [add_node(a)] alone leaves: removing a node undoes the edges that
    brought it in, and keeps the other endpoint. *)
Theorem add_edge_remove_node (g : Graph) (a b : value)
    (bidirectional : bool) :
  graph_inv g ->
  isinstance_T a = true -> isinstance_T b = true ->
  hashable a = true -> hashable b = true ->
  a <> b ->
  is_key b (adj_list g) = false ->
  snd (remove_node b (snd (add_edge a b bidirectional g)))
  = snd (add_node a g).
Proof.
  intros Hinv Ia Ib Ha Hb Hne Kb.
  pose proof (add_edge_inv a b bidirectional Hinv) as Hinv2.
  rewrite remove_node_run by apply Hinv2. rewrite Hb.
  rewrite add_edge_run by assumption.
  rewrite add_node_run, Ha. cbn [snd adj_list]. f_equal.
  assert (Hc : no_dangling (mkGraph (adj_list g)))
    by (rewrite graph_eta; apply Hinv).
  destruct (add_edge_d_fresh a b bidirectional (adj_list g) Hc Hne Kb)
    as (na & Hna & Hbna & ->).
  set (d1 := add_node_d a (adj_list g)) in *.
  assert (Hinv1 : graph_inv (mkGraph d1)).
  { apply add_node_d_inv; [exact Ha | now rewrite graph_eta]. }
  assert (Ka : is_key a d1 = true) by apply is_key_add_node_d_same.
  assert (Kb1 : is_key b d1 = false).
  { unfold d1, add_node_d. destruct (is_key a (adj_list g)); [exact Kb |].
    now rewrite is_key_update_other. }
  unfold remove_node_d.
  assert (Hk : is_key b (update a (na ++ [b]) d1
                         ++ [(b, if bidirectional then [a] else [])])
               = true).
  { apply is_key_In. rewrite keys_app. apply in_or_app. right. now left. }
  rewrite Hk, unlink_all_app, unlink_all_update.
  rewrite remove_first_app_last by exact Hbna.
  rewrite unlink_all_id
    by (apply absent_not_neighbor; [apply Hinv1 | exact Kb1]).
  rewrite update_lookup_id by exact Hna.
  cbn [unlink_all map fst snd].
  apply delete_app_last. now apply is_key_false.
Qed.

Lemma add_edge_remove_node_witness :
  let g := snd (add_edge (VStr "A") (VStr "B") true empty_graph) in
  snd (remove_node (VStr "C") (snd (add_edge (VStr "A") (VStr "C") true g)))
  = snd (add_node (VStr "A") g).
Proof.
  apply (add_edge_remove_node
           (snd (add_edge (VStr "A") (VStr "B") true empty_graph))
           (VStr "A") (VStr "C") true); try reflexivity.
  - apply reachable_inv, reach_add_edge, reach_empty.
  - discriminate.
Defined.

(** ** Counting nodes and edges *)

Lemma adjacent_has_edge (g : Graph) (a b : value) :
  adjacent g a b = true <-> has_edge g a b.
Proof.
  unfold adjacent, has_edge. destruct (lookup a (adj_list g)) as [ns |].
  - rewrite list_contains_In. split.
    + intros H. now exists ns.
    + now intros (ns' & [= <-] & H).
  - split; [discriminate | intros (ns & H & _); discriminate].
Qed.

Lemma length_update_present (V : Type) (k : value) (v : V)
    (d : list (value * V)) :
  is_key k d = true -> length (update k v d) = length d.
Proof.
  intros H. rewrite <- (length_map fst (update k v d)).
  rewrite <- (length_map fst d).
  change (length (keys (update k v d)) = length (keys d)).
  now rewrite keys_update_present.
Qed.

Lemma length_add_node_d (node : value) (d : dict) :
  length (add_node_d node d)
  = if is_key node d then length d else S (length d).
Proof.
  unfold add_node_d. destruct (is_key node d) eqn:E; [reflexivity |].
  rewrite update_absent by exact E. rewrite length_app. simpl. lia.
Qed.

Lemma length_link (a b : value) (d : dict) : length (link a b d) = length d.
Proof.
  unfold link. destruct (lookup a d) as [ns |] eqn:E; [| reflexivity].
  destruct (list_contains b ns); [reflexivity |].
  apply length_update_present. unfold is_key. now rewrite E.
Qed.

Lemma length_delete (V : Type) (k : value) (d : list (value * V)) :
  is_key k d = true -> S (length (delete k d)) = length d.
Proof.
  unfold is_key. induction d as [| [k' v'] d IH]; simpl; [discriminate |].
  destruct (value_eqb k' k); [reflexivity |].
  intros H. simpl. now rewrite IH.
Qed.

(** X9.  [size] is the number of keys.  [add_node] of a node that hashes
    raises it by one when the node is new and not at all otherwise;
    [add_edge] raises it by the number of its two nodes that are new;
    [remove_node] lowers it by one when the node is there. *)
Theorem size_after_mutation (g : Graph) :
  graph_inv g ->
  (forall n, hashable n = true ->
     size (snd (add_node n g))
     = size g + (if is_key n (adj_list g) then 0 else 1)) /\
  (forall a b bidirectional,
     isinstance_T a = true -> isinstance_T b = true ->
     hashable a = true -> hashable b = true -> a <> b ->
     size (snd (add_edge a b bidirectional g))
     = size g + (if is_key a (adj_list g) then 0 else 1)
       + (if is_key b (adj_list g) then 0 else 1)) /\
  (forall x, hashable x = true ->
     size (snd (remove_node x g)) + (if is_key x (adj_list g) then 1 else 0)
     = size g).
Proof.
  intros Hinv. unfold size. split; [| split].
  - intros n Hn. rewrite add_node_run, Hn. cbn [snd adj_list].
    rewrite length_add_node_d. destruct (is_key n (adj_list g)); lia.
  - intros a b bi Ia Ib Ha Hb Hne. rewrite add_edge_run by assumption.
    cbn [snd adj_list]. unfold add_edge_d.
    assert (E : length (add_node_d b (add_node_d a (adj_list g)))
                = length (adj_list g)
                  + (if is_key a (adj_list g) then 0 else 1)
                  + (if is_key b (adj_list g) then 0 else 1)).
    { rewrite !length_add_node_d.
      assert (Kb : is_key b (add_node_d a (adj_list g))
                   = is_key b (adj_list g)).
      { unfold add_node_d. destruct (is_key a (adj_list g)); [reflexivity |].
        now apply is_key_update_other. }
      rewrite Kb.
      destruct (is_key a (adj_list g)), (is_key b (adj_list g)); lia. }
    destruct bi; rewrite ?length_link; exact E.
  - intros x Hx. rewrite remove_node_run by apply Hinv. rewrite Hx.
    cbn [snd adj_list]. unfold remove_node_d.
    destruct (is_key x (adj_list g)) eqn:E; [| lia].
    assert (E' : is_key x (unlink_all x (adj_list g)) = true).
    { rewrite (is_key_keys x (unlink_all x (adj_list g)) (adj_list g));
        [exact E | apply keys_unlink_all]. }
    pose proof (length_delete _ x _ E') as H.
    unfold unlink_all in H at 2. rewrite length_map in H. lia.
Qed.

Lemma size_after_mutation_witness :
  let g := snd (add_edge (VStr "A") (VStr "B") true empty_graph) in
  (forall n, hashable n = true ->
     size (snd (add_node n g))
     = size g + (if is_key n (adj_list g) then 0 else 1)) /\
  (forall a b bidirectional,
     isinstance_T a = true -> isinstance_T b = true ->
     hashable a = true -> hashable b = true -> a <> b ->
     size (snd (add_edge a b bidirectional g))
     = size g + (if is_key a (adj_list g) then 0 else 1)
       + (if is_key b (adj_list g) then 0 else 1)) /\
  (forall x, hashable x = true ->
     size (snd (remove_node x g)) + (if is_key x (adj_list g) then 1 else 0)
     = size g).
Proof.
  apply (size_after_mutation
           (snd (add_edge (VStr "A") (VStr "B") true empty_graph))).
  apply reachable_inv, reach_add_edge, reach_empty.
Defined.

Lemma total_degree_app (d1 d2 : dict) :
  total_degree (mkGraph (d1 ++ d2))
  = total_degree (mkGraph d1) + total_degree (mkGraph d2).
Proof.
  unfold total_degree. cbn [adj_list]. now rewrite map_app, list_sum_app.
Qed.

Lemma total_degree_update (k : value) (v old : list value) (d : dict) :
  lookup k d = Some old ->
  total_degree (mkGraph (update k v d)) + length old
  = total_degree (mkGraph d) + length v.
Proof.
  unfold total_degree. cbn [adj_list].
  induction d as [| [k' v'] d IH]; simpl; [discriminate |].
  destruct (value_eqb k' k); simpl.
  - intros [= ->]. lia.
  - intros H. specialize (IH H). lia.
Qed.

Lemma total_degree_add_node_d (node : value) (d : dict) :
  total_degree (mkGraph (add_node_d node d)) = total_degree (mkGraph d).
Proof.
  unfold add_node_d. destruct (is_key node d) eqn:E; [reflexivity |].
  rewrite update_absent by exact E. rewrite total_degree_app.
  unfold total_degree. simpl. lia.
Qed.

Lemma total_degree_link (a b : value) (d : dict) :
  is_key a d = true ->
  total_degree (mkGraph (link a b d))
  = total_degree (mkGraph d)
    + (if adjacent (mkGraph d) a b then 0 else 1).
Proof.
  intros Ka. unfold link, adjacent. cbn [adj_list].
  destruct (is_key_lookup _ _ Ka) as [ns Hns]. rewrite Hns.
  destruct (list_contains b ns); [lia |].
  pose proof (total_degree_update a (ns ++ [b]) ns d Hns) as H.
  rewrite length_app in H. simpl in H. lia.
Qed.

Lemma adjacent_add_node_d (node a b : value) (d : dict) :
  adjacent (mkGraph (add_node_d node d)) a b = adjacent (mkGraph d) a b.
Proof.
  apply eq_true_iff_eq. rewrite !adjacent_has_edge.
  apply has_edge_add_node_d.
Qed.

Lemma adjacent_link_other (a b x y : value) (d : dict) :
  a <> x ->
  adjacent (mkGraph (link a b d)) x y = adjacent (mkGraph d) x y.
Proof.
  intros Hne. unfold adjacent. cbn [adj_list].
  now rewrite lookup_link_other.
Qed.

Lemma total_degree_add_edge (g : Graph) (a b : value)
    (bidirectional : bool) :
  isinstance_T a = true -> isinstance_T b = true ->
  hashable a = true -> hashable b = true ->
  a <> b ->
  total_degree (snd (add_edge a b bidirectional g))
  = total_degree g + (if adjacent g a b then 0 else 1)
    + (if bidirectional && negb (adjacent g b a) then 1 else 0).
Proof.
  intros Ia Ib Ha Hb Hne.
  rewrite add_edge_run by assumption. cbn [snd].
  unfold add_edge_d.
  set (d2 := add_node_d b (add_node_d a (adj_list g))).
  assert (Ka : is_key a d2 = true)
    by (apply is_key_add_node_d, is_key_add_node_d_same).
  assert (Kb : is_key b d2 = true) by apply is_key_add_node_d_same.
  assert (T2 : total_degree (mkGraph d2) = total_degree g).
  { unfold d2. rewrite !total_degree_add_node_d. now rewrite graph_eta. }
  assert (A2 : forall x y, adjacent (mkGraph d2) x y = adjacent g x y).
  { intros x y. unfold d2. rewrite !adjacent_add_node_d.
    now rewrite graph_eta. }
  destruct bidirectional; cbn [andb].
  - rewrite total_degree_link by now rewrite is_key_link.
    rewrite total_degree_link by exact Ka.
    rewrite adjacent_link_other by exact Hne.
    rewrite T2, !A2. destruct (adjacent g b a); simpl; lia.
  - rewrite total_degree_link by exact Ka.
    rewrite T2, A2. lia.
Qed.

(** X10.  [add_edge] for distinct hashable nodes of the allowed types
    adds to the sum of the list lengths one for each direction that was
    not stored yet, so an edge that is new in both directions raises
    [edge_count] by exactly one, and one that is stored in both leaves it;
    a new one-directional edge adds one to the sum only, which
    [edge_count] halves and rounds down. *)
Theorem edge_count_add_edge (g : Graph) (a b : value)
    (bidirectional : bool) :
  isinstance_T a = true -> isinstance_T b = true ->
  hashable a = true -> hashable b = true ->
  a <> b ->
  let g' := snd (add_edge a b bidirectional g) in
  total_degree g'
  = total_degree g + (if adjacent g a b then 0 else 1)
    + (if bidirectional && negb (adjacent g b a) then 1 else 0) /\
  (bidirectional = true -> adjacent g a b = false ->
   adjacent g b a = false -> edge_count g' = S (edge_count g)) /\
  (adjacent g a b = true -> adjacent g b a = true ->
   edge_count g' = edge_count g).
Proof.
  intros Ia Ib Ha Hb Hne g'.
  pose proof (total_degree_add_edge g a b bidirectional Ia Ib Ha Hb Hne)
    as Ht.
  fold g' in Ht.
  split; [exact Ht |]. unfold edge_count. split.
  - intros -> Eab Eba. rewrite Ht, Eab, Eba. cbn [andb negb].
    replace (total_degree g + 1 + 1) with (total_degree g + 1 * 2) by lia.
    rewrite Nat.div_add by lia. lia.
  - intros Eab Eba. rewrite Ht, Eab, Eba. rewrite andb_false_r.
    now rewrite !Nat.add_0_r.
Qed.

Lemma edge_count_add_edge_witness :
  let g := snd (add_edge (VStr "A") (VStr "B") true empty_graph) in
  let g' := snd (add_edge (VStr "B") (VStr "C") true g) in
  total_degree g'
  = total_degree g + (if adjacent g (VStr "B") (VStr "C") then 0 else 1)
    + (if true && negb (adjacent g (VStr "C") (VStr "B")) then 1 else 0) /\
  (true = true -> adjacent g (VStr "B") (VStr "C") = false ->
   adjacent g (VStr "C") (VStr "B") = false ->
   edge_count g' = S (edge_count g)) /\
  (adjacent g (VStr "B") (VStr "C") = true ->
   adjacent g (VStr "C") (VStr "B") = true ->
   edge_count g' = edge_count g).
Proof.
  apply (edge_count_add_edge
           (snd (add_edge (VStr "A") (VStr "B") true empty_graph))
           (VStr "B") (VStr "C") true); try reflexivity.
  discriminate.
Defined.

Lemma list_sum_bound (A : Type) (f : A -> nat) (c : nat) (l : list A) :
  (forall x, In x l -> f x <= c) -> list_sum (map f l) <= length l * c.
Proof.
  induction l as [| y l IH]; intros H; simpl; [lia |].
  assert (f y <= c) by (apply H; now left).
  assert (list_sum (map f l) <= length l * c)
    by (apply IH; intros x Hx; apply H; now right).
  lia.
Qed.

(** X11.  In every graph made by the methods a node has at most
    [size - 1] neighbours, so the sum of the list lengths is at most
    [size * (size - 1)] and [edge_count] at most half of that: the
    quotient that [density] computes for more than one node has a
    denominator that is not zero and a numerator that is not above it. *)
Theorem edge_count_bound (g : Graph) :
  reachable g ->
  (forall a, degree g a <= size g - 1) /\
  total_degree g <= size g * (size g - 1) /\
  2 * edge_count g <= size g * (size g - 1) /\
  (1 < size g -> 0 < size g * (size g - 1)).
Proof.
  intros Hr. destruct (reachable_inv Hr) as [[Hnd _] Hl Hc].
  pose proof (reachable_no_self_loops g Hr) as Hs.
  unfold lists_nodup, no_dangling, no_self_loops in *.
  rewrite Forall_forall in Hl.
  assert (Hentry : forall k ns, In (k, ns) (adj_list g) ->
                                length ns <= size g - 1).
  { intros k ns Hin.
    assert (Hnd' : NoDup (k :: ns)).
    { constructor; [now apply (Hs k ns) | apply (Hl (k, ns) Hin)]. }
    assert (Hincl : incl (k :: ns) (keys (adj_list g))).
    { intros x [<- | Hx].
      - change k with (fst (k, ns)). unfold keys. now apply in_map.
      - now apply (Hc k ns). }
    pose proof (NoDup_incl_length Hnd' Hincl) as H.
    unfold keys in H. rewrite length_map in H. unfold size. simpl in H. lia. }
  assert (Ht : total_degree g <= size g * (size g - 1)).
  { unfold total_degree. unfold size at 1.
    apply list_sum_bound. intros [k ns] Hin. simpl. now apply (Hentry k). }
  split; [| split; [exact Ht | split]].
  - intros a. unfold degree.
    destruct (lookup a (adj_list g)) as [ns |] eqn:E; [| lia].
    apply (Hentry a). now apply lookup_Some_In.
  - unfold edge_count.
    pose proof (Nat.Div0.mul_div_le (total_degree g) 2). lia.
  - intros H. nia.
Qed.

Lemma edge_count_bound_witness :
  let g := snd (add_edge (VStr "A") (VStr "B") true empty_graph) in
  (forall a, degree g a <= size g - 1) /\
  total_degree g <= size g * (size g - 1) /\
  2 * edge_count g <= size g * (size g - 1) /\
  (1 < size g -> 0 < size g * (size g - 1)).
Proof.
  apply (edge_count_bound
           (snd (add_edge (VStr "A") (VStr "B") true empty_graph))).
  apply reach_add_edge, reach_empty.
Defined.

Lemma length_remove_first (x : value) (l : list value) :
  length (remove_first x l) + (if list_contains x l then 1 else 0)
  = length l.
Proof.
  induction l as [| y l IH]; simpl; [reflexivity |].
  rewrite (value_eqb_sym x y).
  destruct (value_eqb y x); simpl; [lia |].
  fold (list_contains x l). lia.
Qed.

Lemma total_degree_unlink_all (x : value) (d : dict) :
  total_degree (mkGraph (unlink_all x d))
  + length (filter (fun e => list_contains x (snd e)) d)
  = total_degree (mkGraph d).
Proof.
  unfold total_degree. cbn [adj_list].
  induction d as [| [k ns] d IH]; simpl; [reflexivity |].
  pose proof (length_remove_first x ns) as H.
  destruct (list_contains x ns); simpl; lia.
Qed.

Lemma total_degree_delete (x : value) (nx : list value) (d : dict) :
  lookup x d = Some nx ->
  total_degree (mkGraph (delete x d)) + length nx = total_degree (mkGraph d).
Proof.
  unfold total_degree. cbn [adj_list].
  induction d as [| [k ns] d IH]; simpl; [discriminate |].
  destruct (value_eqb k x); simpl.
  - intros [= ->]. lia.
  - intros H. specialize (IH H). lia.
Qed.

Lemma NoDup_keys_filter (p : value * list value -> bool) (d : dict) :
  NoDup (keys d) -> NoDup (keys (filter p d)).
Proof.
  unfold keys. induction d as [| e d IH]; simpl; intros H; [constructor |].
  inversion H as [| ? ? Hnotin Hnd]; subst.
  destruct (p e); simpl; [| auto].
  constructor; [| auto]. intros Hin. apply Hnotin.
  apply in_map_iff in Hin. destruct Hin as (e' & E & He').
  apply filter_In in He'. apply in_map_iff. exists e'. tauto.
Qed.

(** With symmetric adjacency, as many lists hold [x] as [x] has
    neighbours. *)
Lemma count_in_symmetric (x : value) (nx : list value) (d : dict) :
  graph_inv (mkGraph d) -> symmetric (mkGraph d) ->
  lookup x d = Some nx ->
  length (filter (fun e => list_contains x (snd e)) d) = length nx.
Proof.
  intros [[Hnd _] Hl _] Hsym Hx.
  unfold lists_nodup, symmetric, has_edge in *. cbn [adj_list] in *.
  rewrite Forall_forall in Hl.
  set (F := filter (fun e => list_contains x (snd e)) d).
  assert (HK : NoDup (keys F)) by now apply NoDup_keys_filter.
  assert (Hnx : NoDup nx) by (apply (Hl (x, nx)); now apply lookup_Some_In).
  assert (H1 : incl (keys F) nx).
  { intros k Hk. unfold keys in Hk. apply in_map_iff in Hk.
    destruct Hk as ([k' ns] & E & Hin). simpl in E. subst k'.
    apply filter_In in Hin. destruct Hin as [Hin Hc]. simpl in Hc.
    apply list_contains_In in Hc.
    destruct (Hsym k x) as (nx' & Hx' & Hk').
    - exists ns. split; [now apply In_lookup | exact Hc].
    - congruence. }
  assert (H2 : incl nx (keys F)).
  { intros k Hk. destruct (Hsym x k) as (ns & Hns & Hxin).
    - now exists nx.
    - unfold keys. apply in_map_iff. exists (k, ns). split; [reflexivity |].
      apply filter_In. split; [now apply lookup_Some_In |].
      simpl. now apply list_contains_In. }
  pose proof (NoDup_incl_length HK H1) as L1.
  pose proof (NoDup_incl_length Hnx H2) as L2.
  unfold keys in L1, L2. rewrite length_map in L1, L2. lia.
Qed.

(** What [remove_node] takes from the sum of the list lengths when
    adjacency is symmetric: twice the number of neighbours of the node. *)
Lemma total_degree_remove_node_d (x : value) (d : dict) :
  graph_inv (mkGraph d) -> symmetric (mkGraph d) ->
  no_self_loops (mkGraph d) ->
  total_degree (mkGraph (remove_node_d x d)) + 2 * degree (mkGraph d) x
  = total_degree (mkGraph d).
Proof.
  intros Hinv Hsym Hs. unfold remove_node_d, degree, is_key. cbn [adj_list].
  destruct (lookup x d) as [nx |] eqn:Ex; [| lia].
  assert (Hxx : ~ In x nx)
    by (apply (Hs x nx); now apply lookup_Some_In).
  pose proof (total_degree_unlink_all x d) as H1.
  rewrite (count_in_symmetric x nx d Hinv Hsym Ex) in H1.
  pose proof (total_degree_delete x (remove_first x nx) (unlink_all x d))
    as H2.
  rewrite lookup_unlink_all, Ex in H2. specialize (H2 eq_refl).
  rewrite remove_first_notin in H2 by exact Hxx. lia.
Qed.

Lemma adjacent_symmetric (g : Graph) (a b : value) :
  symmetric g -> adjacent g a b = adjacent g b a.
Proof.
  intros Hsym. apply eq_true_iff_eq. rewrite !adjacent_has_edge.
  split; apply Hsym.
Qed.

Lemma undirected_total_degree_even (g : Graph) :
  undirected g -> exists k, total_degree g = 2 * k.
Proof.
  induction 1 as [| node g _ IH | a b g Hu IH | node g Hu IH].
  - now exists 0.
  - rewrite add_node_run. destruct (hashable node); [| exact IH].
    cbn [snd]. rewrite total_degree_add_node_d. now rewrite graph_eta.
  - destruct IH as [k Hk].
    destruct (isinstance_T a && isinstance_T b) eqn:Ht.
    + apply andb_true_iff in Ht. destruct Ht as [Ia Ib].
      destruct (add_edge_cases_distinct a b true g)
        as [-> | [[_ ->] | (Ha & Hb & Hne & E)]].
      * now exists k.
      * rewrite total_degree_add_node_d, graph_eta. now exists k.
      * rewrite (total_degree_add_edge g a b true Ia Ib Ha Hb Hne).
        rewrite (adjacent_symmetric g b a (undirected_is_symmetric g Hu)).
        destruct (adjacent g a b); cbn [andb negb].
        -- exists k. lia.
        -- exists (S k). lia.
    + exists k. unfold add_edge. now rewrite Ht.
  - destruct IH as [k Hk].
    pose proof (undirected_reachable g Hu) as Hr.
    pose proof (reachable_inv Hr) as Hinv.
    rewrite remove_node_run by apply Hinv.
    destruct (hashable node); [| now exists k]. cbn [snd].
    pose proof (total_degree_remove_node_d node (adj_list g)) as H.
    rewrite graph_eta in H.
    specialize (H Hinv (undirected_is_symmetric g Hu)
                  (reachable_no_self_loops g Hr)).
    exists (k - degree g node). lia.
Qed.

Lemma undirected_edge_count_half (g : Graph) :
  undirected g -> total_degree g = 2 * edge_count g.
Proof.
  intros Hu. destruct (undirected_total_degree_even g Hu) as [k Hk].
  unfold edge_count. rewrite Hk.
  replace (2 * k) with (k * 2) by lia. rewrite Nat.div_mul by lia. lia.
Qed.

(** X12.  In a graph made without one-directional edges the sum of the
    list lengths is even and [edge_count] is exactly half of it: every
    edge is counted once, the division loses nothing. *)
Theorem undirected_edge_count_exact (g : Graph) :
  undirected g -> total_degree g = 2 * edge_count g.
Proof. apply undirected_edge_count_half. Qed.

Lemma undirected_edge_count_exact_witness :
  let g := snd (remove_node (VStr "C")
                  (snd (add_edge (VStr "B") (VStr "C") true
                          (snd (add_edge (VStr "A") (VStr "B") true
                                  empty_graph))))) in
  total_degree g = 2 * edge_count g.
Proof.
  apply (undirected_edge_count_exact
           (snd (remove_node (VStr "C")
                   (snd (add_edge (VStr "B") (VStr "C") true
                           (snd (add_edge (VStr "A") (VStr "B") true
                                   empty_graph))))))).
  apply undirected_remove_node, undirected_add_edge, undirected_add_edge,
    undirected_empty.
Defined.

(** X13.  In a graph made without one-directional edges, [remove_node(x)]
    lowers [edge_count] by the number of neighbours that [x] had. *)
Theorem edge_count_remove_node (g : Graph) (x : value) :
  undirected g ->
  hashable x = true ->
  edge_count (snd (remove_node x g)) + degree g x = edge_count g.
Proof.
  intros Hu Hx.
  pose proof (undirected_edge_count_half g Hu) as E.
  pose proof (undirected_edge_count_half _ (undirected_remove_node x Hu))
    as E'.
  pose proof (undirected_reachable g Hu) as Hr.
  pose proof (reachable_inv Hr) as Hinv.
  pose proof (total_degree_remove_node_d x (adj_list g)) as H.
  rewrite graph_eta in H.
  specialize (H Hinv (undirected_is_symmetric g Hu)
                (reachable_no_self_loops g Hr)).
  rewrite remove_node_run in E' by apply Hinv. rewrite Hx in E'.
  cbn [snd] in E'.
  rewrite remove_node_run by apply Hinv. rewrite Hx. cbn [snd]. lia.
Qed.

Lemma edge_count_remove_node_witness :
  let g := snd (add_edge (VStr "B") (VStr "C") true
                  (snd (add_edge (VStr "A") (VStr "B") true empty_graph))) in
  edge_count (snd (remove_node (VStr "B") g)) + degree g (VStr "B")
  = edge_count g.
Proof.
  apply (edge_count_remove_node
           (snd (add_edge (VStr "B") (VStr "C") true
                   (snd (add_edge (VStr "A") (VStr "B") true empty_graph))))
           (VStr "B")).
  - apply undirected_add_edge, undirected_add_edge, undirected_empty.
  - reflexivity.
Defined.

(** ** What [bfs] returns *)

Lemma get_neighbors_edges (g : Graph) (c : value) (ns : list value) :
  get_neighbors g c = Val ns -> forall y, has_edge g c y <-> In y ns.
Proof.
  unfold get_neighbors, dict_get, has_edge.
  destruct (hashable c); [| discriminate].
  destruct (lookup c (adj_list g)) as [ns' |]; intros [= <-] y.
  - split; [now intros (l & [= <-] & H) | intros H; now exists ns'].
  - split; [intros (l & E & _); discriminate | intros []].
Qed.

(** The inner loop of [bfs], exactly: the neighbours that are not visited
    yet, each once and in the order of the list, go to the end of the
    queue and into the set. *)
Lemma bfs_for_exact (neighbors : list value) :
  forall (visited : pyset) (queue : list value),
    Forall (fun n => hashable n = true) neighbors ->
    exists new,
      bfs_for neighbors visited queue
      = Val (rev new ++ visited, queue ++ new) /\
      NoDup new /\
      (forall x, In x new <-> In x neighbors /\ ~ In x visited) /\
      (NoDup neighbors -> (forall x, In x neighbors -> ~ In x visited) ->
       new = neighbors).
Proof.
  induction neighbors as [| n rest IH]; intros visited queue Hh; simpl.
  - exists []. simpl. rewrite app_nil_r.
    repeat split; try constructor; try tauto.
  - inversion Hh as [| ? ? Hn Hrest]; subst.
    unfold set_contains, set_add. rewrite Hn. simpl.
    destruct (list_contains n visited) eqn:E; simpl.
    + apply list_contains_In in E.
      destruct (IH visited queue Hrest) as (new & Hrun & Hnd & Hnew & Heq).
      exists new. split; [exact Hrun |]. split; [exact Hnd |]. split.
      * intros x. rewrite Hnew. split; [tauto |].
        intros [[<- | Hx] Hv]; [contradiction | tauto].
      * intros _ Hfresh. exfalso. apply (Hfresh n); [now left | exact E].
    + apply list_contains_false in E.
      destruct (IH (n :: visited) (queue ++ [n]) Hrest)
        as (new & Hrun & Hnd & Hnew & Heq).
      exists (n :: new). split; [| split; [| split]].
      * rewrite Hrun. simpl. now rewrite <- !app_assoc.
      * constructor; [| exact Hnd]. rewrite Hnew. simpl. tauto.
      * intros x. simpl. rewrite Hnew. simpl. split.
        -- intros [<- | [Hx Hv]]; [tauto | tauto].
        -- intros [[<- | Hx] Hv]; [now left |].
           destruct (value_eq_dec n x) as [-> | Hne]; [now left |].
           right. split; [exact Hx |]. intros [E' | Hv']; tauto.
      * intros Hndn Hfresh. inversion Hndn as [| ? ? Hnr Hndr]; subst.
        f_equal. apply Heq; [exact Hndr |].
        intros x Hx [<- | Hv]; [contradiction |].
        apply (Hfresh x); [now right | exact Hv].
Qed.

(** The loop of [bfs] under its invariant: the visited set is the order
    and the queue together, no node is there twice, every node in it can
    be reached from the start, and the neighbours of the nodes in the
    order are visited. *)
Lemma bfs_while_inv (g : Graph) (s : value) :
  Forall (fun n => hashable n = true) (all_items g) ->
  forall (fuel : nat) (queue : list value) (visited : pyset)
         (order order' : list value),
    bfs_while fuel g queue visited order = Val order' ->
    (forall x, In x visited <-> In x (order ++ queue)) ->
    NoDup (order ++ queue) ->
    (forall x, In x visited -> connected g s x) ->
    (forall x y, In x order -> has_edge g x y -> In y visited) ->
    exists rest,
      order' = order ++ queue ++ rest /\
      NoDup order' /\
      (forall x, In x order' -> connected g s x) /\
      (forall x y, In x order' -> has_edge g x y -> In y order').
Proof.
  intros Hitems. induction fuel as [| fuel IH];
    intros queue visited order order' Hrun Hvis Hnd Hconn Hclosed.
  - destruct queue as [| c q]; [| discriminate].
    injection Hrun as <-. exists []. rewrite !app_nil_r in *.
    repeat split; auto.
    + intros x Hx. apply Hconn. now apply Hvis.
    + intros x y Hx He. apply Hvis. eapply Hclosed; eassumption.
  - destruct queue as [| c q].
    + injection Hrun as <-. exists []. rewrite !app_nil_r in *.
      repeat split; auto.
      * intros x Hx. apply Hconn. now apply Hvis.
      * intros x y Hx He. apply Hvis. eapply Hclosed; eassumption.
    + cbn [bfs_while] in Hrun.
      destruct (get_neighbors g c) as [ns | |] eqn:Hns; try discriminate.
      cbn [bind] in Hrun.
      assert (Hc : hashable c = true).
      { unfold get_neighbors, dict_get in Hns.
        destruct (hashable c); [reflexivity | discriminate]. }
      destruct (get_neighbors_total g c Hc) as (ns' & Hns' & Hsub).
      rewrite Hns in Hns'. injection Hns' as <-.
      assert (Hnsh : Forall (fun n => hashable n = true) ns).
      { rewrite Forall_forall in *. auto. }
      destruct (bfs_for_exact ns visited q Hnsh)
        as (new & Hfor & Hndnew & Hnew & _).
      rewrite Hfor in Hrun. cbn [bind] in Hrun.
      pose proof (get_neighbors_edges g c ns Hns) as Hedges.
      assert (Hcv : In c visited).
      { apply Hvis. apply in_or_app. right. now left. }
      destruct (IH (q ++ new) (rev new ++ visited) (order ++ [c]) order'
                  Hrun) as (rest & Hord & Hnd' & Hconn' & Hclosed').
      * intros x. rewrite in_app_iff, <- in_rev, Hvis.
        rewrite !in_app_iff. simpl. tauto.
      * rewrite <- app_assoc. simpl.
        replace (order ++ c :: q ++ new) with ((order ++ c :: q) ++ new)
          by (rewrite <- app_assoc; reflexivity).
        apply NoDup_app; [exact Hnd | exact Hndnew |].
        intros x Hx Hxn. apply Hnew in Hxn. destruct Hxn as [_ Hxv].
        apply Hxv. now apply Hvis.
      * intros x Hx. apply in_app_or in Hx. destruct Hx as [Hx | Hx].
        -- apply in_rev in Hx. apply Hnew in Hx. destruct Hx as [Hx _].
           apply connected_step with (b := c); [now apply Hconn |].
           now apply Hedges.
        -- now apply Hconn.
      * intros x y Hx He. apply in_or_app.
        apply in_app_or in Hx. destruct Hx as [Hx | [<- | []]].
        -- right. eapply Hclosed; eassumption.
        -- apply Hedges in He.
           destruct (in_dec value_eq_dec y visited) as [Hy | Hy];
             [now right |].
           left. apply -> in_rev. apply Hnew. tauto.
      * exists (new ++ rest). split; [| auto].
        rewrite Hord. rewrite <- !app_assoc. reflexivity.
Qed.

Lemma bfs_spec (g : Graph) (s : value) :
  Forall (fun n => hashable n = true) (all_items g) ->
  hashable s = true ->
  exists rest,
    bfs g s = Val (s :: rest) /\
    NoDup (s :: rest) /\
    (forall x, In x (s :: rest) <-> connected g s x).
Proof.
  intros Hitems Hs.
  destruct (bfs_total g s Hs Hitems) as (order & Hrun & _).
  pose proof Hrun as Hrun'.
  unfold bfs, set_add in Hrun'. rewrite Hs in Hrun'.
  cbn [bind list_contains existsb] in Hrun'.
  destruct (bfs_while_inv g s Hitems _ _ _ _ _ Hrun')
    as (rest & Hord & Hnd & Hconn & Hclosed).
  - intros x. simpl. tauto.
  - simpl. repeat constructor. simpl. tauto.
  - intros x [<- | []]. constructor.
  - intros x y [].
  - simpl in Hord. subst order. exists rest.
    split; [exact Hrun |]. split; [exact Hnd |].
    intros x. split; [apply Hconn |].
    induction 1 as [| b c _ IH He]; [now left |].
    eapply Hclosed; eassumption.
Qed.

(** X14.  On a graph of the data model and for a start node that hashes,
    [bfs] returns a list that begins with the start node, holds no node
    twice, and holds exactly the nodes that can be reached from the start
    along stored edges. *)
Theorem bfs_order (g : Graph) (s : value) :
  graph_inv g ->
  hashable s = true ->
  exists rest,
    bfs g s = Val (s :: rest) /\
    NoDup (s :: rest) /\
    (forall x, In x (s :: rest) <-> connected g s x).
Proof.
  intros Hinv Hs. apply bfs_spec; [| exact Hs].
  now apply graph_inv_items_hashable.
Qed.

Lemma bfs_order_witness :
  let g := snd (add_edge (VStr "A") (VStr "B") true empty_graph) in
  exists rest,
    bfs g (VStr "A") = Val (VStr "A" :: rest) /\
    NoDup (VStr "A" :: rest) /\
    (forall x, In x (VStr "A" :: rest) <-> connected g (VStr "A") x).
Proof.
  apply (bfs_order (snd (add_edge (VStr "A") (VStr "B") true empty_graph))
           (VStr "A")).
  - apply reachable_inv, reach_add_edge, reach_empty.
  - reflexivity.
Defined.

(** X15.  In a graph made by the methods, the order of [bfs] is the start
    node, then all its neighbours in the order of its list, then the rest:
    the nodes next to the start come out in the order in which their edges
    were added. *)
Theorem bfs_neighbors_first (g : Graph) (s : value) (ns : list value) :
  reachable g ->
  get_neighbors g s = Val ns ->
  exists rest, bfs g s = Val (s :: ns ++ rest).
Proof.
  intros Hr Hns.
  pose proof (reachable_inv Hr) as Hinv.
  pose proof (graph_inv_items_hashable g Hinv) as Hitems.
  assert (Hs : hashable s = true).
  { unfold get_neighbors, dict_get in Hns.
    destruct (hashable s); [reflexivity | discriminate]. }
  destruct (bfs_total g s Hs Hitems) as (order & Hrun & _).
  rewrite Hrun. pose proof Hrun as Hrun'.
  unfold bfs, set_add in Hrun'. rewrite Hs in Hrun'.
  cbn [bind list_contains existsb] in Hrun'.
  unfold node_bound in Hrun'. cbn [bfs_while] in Hrun'.
  rewrite Hns in Hrun'. cbn [bind] in Hrun'.
  destruct (get_neighbors_total g s Hs) as (ns' & Hns' & Hsub).
  rewrite Hns in Hns'. injection Hns' as <-.
  assert (Hnsh : Forall (fun n => hashable n = true) ns).
  { rewrite Forall_forall in *. auto. }
  pose proof (get_neighbors_edges g s ns Hns) as Hedges.
  assert (Hndns : NoDup ns /\ ~ In s ns).
  { unfold get_neighbors, dict_get in Hns. rewrite Hs in Hns.
    destruct (lookup s (adj_list g)) as [l |] eqn:E.
    - injection Hns as ->. apply lookup_Some_In in E. split.
      + destruct Hinv as [_ Hl _]. unfold lists_nodup in Hl.
        rewrite Forall_forall in Hl. apply (Hl (s, ns) E).
      + apply (reachable_no_self_loops g Hr s ns E).
    - injection Hns as <-. split; [constructor | tauto]. }
  destruct Hndns as [Hndns Hsns].
  destruct (bfs_for_exact ns [s] [] Hnsh) as (new & Hfor & Hndnew & Hnew & Heq).
  assert (new = ns).
  { apply Heq; [exact Hndns |]. intros x Hx [<- | []]. contradiction. }
  subst new. rewrite Hfor in Hrun'. cbn [bind app] in Hrun'.
  destruct (bfs_while_inv g s Hitems _ _ _ _ _ Hrun')
    as (rest & Hord & _).
  - intros x. rewrite in_app_iff, <- in_rev. simpl. tauto.
  - simpl. constructor; [exact Hsns | exact Hndns].
  - intros x Hx. apply in_app_or in Hx. destruct Hx as [Hx | [<- | []]].
    + apply in_rev in Hx.
      apply connected_step with (b := s); [constructor |].
      now apply Hedges.
    + constructor.
  - intros x y [<- | []] He. apply in_or_app. left. apply -> in_rev.
    now apply Hedges.
  - exists rest. now rewrite Hord.
Qed.

Lemma bfs_neighbors_first_witness :
  let g := snd (add_edge (VStr "A") (VStr "C") true
                  (snd (add_edge (VStr "A") (VStr "B") true empty_graph))) in
  exists rest,
    bfs g (VStr "A") = Val (VStr "A" :: [VStr "B"; VStr "C"] ++ rest).
Proof.
  apply (bfs_neighbors_first
           (snd (add_edge (VStr "A") (VStr "C") true
                   (snd (add_edge (VStr "A") (VStr "B") true empty_graph))))
           (VStr "A") [VStr "B"; VStr "C"]).
  - apply reach_add_edge, reach_add_edge, reach_empty.
  - reflexivity.
Defined.

(** X16.  On a graph of the data model and for a start node that hashes,
    [has_path(start, end)] returns normally, and returns true exactly
    when [end] can be reached from [start] along stored edges. *)
Theorem has_path_connected (g : Graph) (s e : value) :
  graph_inv g ->
  hashable s = true ->
  exists b, has_path g s e = Val b /\ (b = true <-> connected g s e).
Proof.
  intros Hinv Hs.
  destruct (bfs_spec g s (graph_inv_items_hashable g Hinv) Hs)
    as (rest & Hrun & _ & Hmem).
  unfold has_path. rewrite Hrun. cbn [bind].
  exists (list_contains e (s :: rest)). split; [reflexivity |].
  rewrite list_contains_In. apply Hmem.
Qed.

Lemma has_path_connected_witness :
  let g := snd (add_edge (VStr "A") (VStr "B") false empty_graph) in
  exists b,
    has_path g (VStr "B") (VStr "A") = Val b /\
    (b = true <-> connected g (VStr "B") (VStr "A")).
Proof.
  apply (has_path_connected
           (snd (add_edge (VStr "A") (VStr "B") false empty_graph))
           (VStr "B") (VStr "A")).
  - apply reachable_inv, reach_add_edge, reach_empty.
  - reflexivity.
Defined.

(** ** [is_connected] *)

Lemma set_from_distinct (l : list value) :
  forall acc : pyset,
    Forall (fun n => hashable n = true) l ->
    NoDup l ->
    (forall x, In x l -> ~ In x acc) ->
    exists v, set_from l acc = Val v /\ length v = length l + length acc.
Proof.
  induction l as [| x l IH]; intros acc Hh Hnd Hfresh; simpl.
  - now exists acc.
  - inversion Hh as [| ? ? Hx Hrest]; subst.
    inversion Hnd as [| ? ? Hxl Hndl]; subst.
    unfold set_add. rewrite Hx.
    assert (E : list_contains x acc = false).
    { apply list_contains_false. apply Hfresh. now left. }
    rewrite E. cbn [bind].
    destruct (IH (x :: acc) Hrest Hndl) as (v & Hrun & Hlen).
    + intros y Hy [<- | Hacc]; [contradiction |].
      apply (Hfresh y); [now right | exact Hacc].
    + exists v. split; [exact Hrun |]. simpl in Hlen. lia.
Qed.

Lemma connected_trans (g : Graph) (a b c : value) :
  connected g a b -> connected g b c -> connected g a c.
Proof.
  intros Hab Hbc. induction Hbc as [| c d _ IH He]; [exact Hab |].
  now apply connected_step with (b := c).
Qed.

Lemma connected_sym (g : Graph) (a b : value) :
  symmetric g -> connected g a b -> connected g b a.
Proof.
  intros Hsym Hab. induction Hab as [| b c _ IH He]; [constructor |].
  apply connected_trans with (b := b); [| exact IH].
  apply connected_step with (b := c); [constructor | now apply Hsym].
Qed.

Lemma connected_keys (g : Graph) (s x : value) :
  graph_inv g -> In s (keys (adj_list g)) -> connected g s x ->
  In x (keys (adj_list g)).
Proof.
  intros [_ _ Hc] Hs Hconn. induction Hconn as [| b c _ IH He];
    [exact Hs |].
  destruct He as (ns & Hns & Hin).
  apply (Hc b ns c); [now apply lookup_Some_In | exact Hin].
Qed.

Lemma is_connected_spec (g : Graph) (start : value) :
  graph_inv g ->
  hd_error (keys (adj_list g)) = Some start ->
  exists b,
    is_connected g = Val b /\
    (b = true <->
     forall x, In x (keys (adj_list g)) -> connected g start x).
Proof.
  intros Hinv Hhd. unfold is_connected.
  destruct (keys (adj_list g)) as [| k ks] eqn:Ek; [discriminate |].
  injection Hhd as ->. rewrite <- Ek.
  assert (Hkey : In start (keys (adj_list g)))
    by (rewrite Ek; now left).
  assert (Hkh : Forall (fun k => hashable k = true) (keys (adj_list g)))
    by apply Hinv.
  assert (Hs : hashable start = true)
    by (rewrite Forall_forall in Hkh; now apply Hkh).
  destruct (bfs_spec g start (graph_inv_items_hashable g Hinv) Hs)
    as (rest & Hrun & Hnd & Hmem).
  rewrite Hrun. cbn [bind].
  assert (Hincl : incl (start :: rest) (keys (adj_list g))).
  { intros x Hx. apply (connected_keys g start x Hinv Hkey).
    now apply Hmem. }
  destruct (set_from_distinct (start :: rest) []) as (v & Hset & Hlen).
  - rewrite Forall_forall in *. intros x Hx. apply Hkh. now apply Hincl.
  - exact Hnd.
  - intros x _ [].
  - rewrite Hset. cbn [bind].
    exists (length v =? length (adj_list g)). split; [reflexivity |].
    rewrite Nat.eqb_eq, Hlen, Nat.add_0_r.
    assert (Hk : length (keys (adj_list g)) = length (adj_list g))
      by apply length_map.
    assert (Hndk : NoDup (keys (adj_list g))) by apply Hinv.
    split.
    + intros Hl x Hx. apply Hmem.
      apply (@NoDup_length_incl _ (start :: rest) (keys (adj_list g)) Hnd);
        [lia | exact Hincl | exact Hx].
    + intros Hall.
      assert (Hincl' : incl (keys (adj_list g)) (start :: rest)).
      { intros x Hx. apply Hmem. now apply Hall. }
      pose proof (NoDup_incl_length Hnd Hincl).
      pose proof (NoDup_incl_length Hndk Hincl'). lia.
Qed.

(** X17.  [is_connected] is true on the empty graph.  On a graph of the
    data model with at least one node it returns normally, and returns
    true exactly when every node can be reached from the first key of the
    dictionary, the node that was added first among those still there. *)
Theorem is_connected_first_key (g : Graph) :
  graph_inv g ->
  (adj_list g = [] -> is_connected g = Val true) /\
  (forall start,
     hd_error (keys (adj_list g)) = Some start ->
     exists b,
       is_connected g = Val b /\
       (b = true <->
        forall x, In x (keys (adj_list g)) -> connected g start x)).
Proof.
  intros Hinv. split.
  - intros E. unfold is_connected. now rewrite E.
  - intros start. now apply is_connected_spec.
Qed.

Lemma is_connected_first_key_witness :
  let g := snd (add_node (VStr "C")
                  (snd (add_edge (VStr "A") (VStr "B") true empty_graph))) in
  (adj_list g = [] -> is_connected g = Val true) /\
  (forall start,
     hd_error (keys (adj_list g)) = Some start ->
     exists b,
       is_connected g = Val b /\
       (b = true <->
        forall x, In x (keys (adj_list g)) -> connected g start x)).
Proof.
  apply (is_connected_first_key
           (snd (add_node (VStr "C")
                   (snd (add_edge (VStr "A") (VStr "B") true
                           empty_graph))))).
  apply reachable_inv, reach_add_node, reach_add_edge, reach_empty.
Defined.

(** X18.  On a graph made without one-directional edges [is_connected]
    returns normally, and returns true exactly when every two nodes are
    joined by a sequence of edges. *)
Theorem is_connected_undirected (g : Graph) :
  undirected g ->
  exists b,
    is_connected g = Val b /\
    (b = true <->
     forall x y,
       In x (keys (adj_list g)) -> In y (keys (adj_list g)) ->
       connected g x y).
Proof.
  intros Hu.
  pose proof (reachable_inv (undirected_reachable g Hu)) as Hinv.
  pose proof (undirected_is_symmetric g Hu) as Hsym.
  destruct (keys (adj_list g)) as [| start ks] eqn:Ek.
  - exists true. split.
    + unfold is_connected. now rewrite Ek.
    + split; [intros _ x y [] | reflexivity].
  - destruct (is_connected_spec g start Hinv) as (b & Hrun & Hb).
    + now rewrite Ek.
    + exists b. split; [exact Hrun |]. rewrite Hb, Ek. split.
      * intros Hall x y Hx Hy.
        apply connected_trans with (b := start).
        -- apply connected_sym; [exact Hsym | now apply Hall].
        -- now apply Hall.
      * intros Hall x Hx. apply Hall; [now left | exact Hx].
Qed.

Lemma is_connected_undirected_witness :
  let g := snd (add_node (VStr "C")
                  (snd (add_edge (VStr "A") (VStr "B") true empty_graph))) in
  exists b,
    is_connected g = Val b /\
    (b = true <->
     forall x y,
       In x (keys (adj_list g)) -> In y (keys (adj_list g)) ->
       connected g x y).
Proof.
  apply (is_connected_undirected
           (snd (add_node (VStr "C")
                   (snd (add_edge (VStr "A") (VStr "B") true
                           empty_graph))))).
  apply undirected_add_node, undirected_add_edge, undirected_empty.
Defined.

(** ** Depth-first search *)











(** ** Walks *)

Lemma last_nonempty (A : Type) (p : list A) (d d' : A) :
  p <> [] -> last p d = last p d'.
Proof.
  induction p as [| a p IH]; [congruence |].
  intros _. destruct p as [| b p]; [reflexivity |].
  simpl in *. apply IH. discriminate.
Qed.

Lemma is_walk_snoc (g : Graph) (p : list value) (c n : value) :
  p <> [] -> is_walk g p -> last p c = c -> has_edge g c n ->
  is_walk g (p ++ [n]).
Proof.
  induction p as [| a p IH]; [congruence |].
  intros _ Hw Hl He. destruct p as [| b p].
  - simpl in *. subst a. tauto.
  - destruct Hw as [Hab Hw]. split; [exact Hab |].
    apply IH; [discriminate | exact Hw | exact Hl | exact He].
Qed.

Lemma walk_snoc (g : Graph) (s c n : value) (p : list value) :
  walk_from_to g s c p -> has_edge g c n -> walk_from_to g s n (p ++ [n]).
Proof.
  intros (Hw & Hhd & Hl & Hne) He. repeat split.
  - apply (is_walk_snoc g p c n Hne Hw); [| exact He].
    now rewrite (last_nonempty _ p c s Hne).
  - destruct p; [congruence | exact Hhd].
  - apply last_last.
  - destruct p; discriminate.
Qed.

Lemma is_walk_unsnoc (g : Graph) (p : list value) (n d : value) :
  is_walk g (p ++ [n]) ->
  is_walk g p /\ (p <> [] -> has_edge g (last p d) n).
Proof.
  induction p as [| a p IH]; intros Hw.
  - split; [exact I | congruence].
  - destruct p as [| b p].
    + simpl in Hw. split; [exact I |]. intros _. simpl. tauto.
    + destruct Hw as [Hab Hw]. destruct (IH Hw) as [Hw' He].
      split; [split; assumption |]. intros _. apply He. discriminate.
Qed.

(** A walk from [s] is [s] alone, or a walk from [s] with one more edge. *)
Lemma walk_unsnoc (g : Graph) (s x : value) (q : list value) :
  walk_from_to g s x q ->
  (q = [s] /\ x = s) \/
  exists q' u,
    q = q' ++ [x] /\ walk_from_to g s u q' /\ has_edge g u x.
Proof.
  intros (Hw & Hhd & Hl & Hne).
  destruct (exists_last Hne) as (q' & y & ->).
  rewrite last_last in Hl. subst y.
  destruct q' as [| a q'].
  - left. simpl in Hhd. injection Hhd as ->. now split.
  - right. simpl in Hhd. injection Hhd as ->.
    destruct (is_walk_unsnoc g (s :: q') x s Hw) as [Hw' He].
    exists (s :: q'), (last (s :: q') s). split; [reflexivity |].
    split; [| apply He; discriminate].
    repeat split; [exact Hw' | discriminate].
Qed.

Lemma walk_connected (g : Graph) (s : value) (q : list value) :
  forall x, walk_from_to g s x q -> connected g s x.
Proof.
  remember (length q) as n eqn:Hn. revert q Hn.
  induction n as [| n IH]; intros q Hn x Hq.
  - destruct q; [| discriminate]. now destruct Hq as (_ & _ & _ & H).
  - destruct (walk_unsnoc g s x q Hq) as [[-> ->] | (q' & u & -> & Hq' & He)].
    + constructor.
    + apply connected_step with (b := u); [| exact He].
      apply (IH q'); [| exact Hq'].
      rewrite length_app in Hn. simpl in Hn. lia.
Qed.

Lemma connected_walk (g : Graph) (s x : value) :
  connected g s x -> exists q, walk_from_to g s x q.
Proof.
  induction 1 as [| b c _ [q Hq] He].
  - exists [s]. repeat split. discriminate.
  - exists (q ++ [c]). now apply walk_snoc with (c := b).
Qed.

(** ** What [shortest_path] returns *)

(** The inner loop of [shortest_path], exactly. *)
Lemma shortest_path_for_exact (path : list value) (neighbors : list value) :
  forall (visited : pyset) (queue : list (value * list value)),
    Forall (fun n => hashable n = true) neighbors ->
    exists new,
      shortest_path_for neighbors path visited queue
      = Val (rev new ++ visited,
             queue ++ map (fun n => (n, path ++ [n])) new) /\
      (forall x, In x new <-> In x neighbors /\ ~ In x visited).
Proof.
  induction neighbors as [| n rest IH]; intros visited queue Hh; simpl.
  - exists []. simpl. rewrite app_nil_r. split; [reflexivity | tauto].
  - inversion Hh as [| ? ? Hn Hrest]; subst.
    unfold set_contains, set_add. rewrite Hn. simpl.
    destruct (list_contains n visited) eqn:E; simpl.
    + apply list_contains_In in E.
      destruct (IH visited queue Hrest) as (new & Hrun & Hnew).
      exists new. split; [exact Hrun |].
      intros x. rewrite Hnew. split; [tauto |].
      intros [[<- | Hx] Hv]; [contradiction | tauto].
    + apply list_contains_false in E.
      destruct (IH (n :: visited) (queue ++ [(n, path ++ [n])]) Hrest)
        as (new & Hrun & Hnew).
      exists (n :: new). split.
      * rewrite Hrun. simpl. now rewrite <- !app_assoc.
      * intros x. simpl. rewrite Hnew. simpl. split.
        -- intros [<- | [Hx Hv]]; tauto.
        -- intros [[<- | Hx] Hv]; [now left |].
           destruct (value_eq_dec n x) as [-> | Hne]; [now left |].
           right. split; [exact Hx |]. intros [E' | Hv']; tauto.
Qed.

(** When the first layer of the queue is used up, the second becomes the
    first. *)
Lemma sp_inv_shift (g : Graph) (s e : value) (L : nat)
    (q2 : list (value * list value)) (visited : pyset) (done : list value) :
  sp_inv g s e L [] q2 visited done ->
  sp_inv g s e (S L) q2 [] visited done.
Proof.
  intros [Hvis Hpaths Hl1 Hl2 Hbelow Hclosed Hend Hstart].
  simpl in *. split; try assumption.
  - intros x. rewrite app_nil_r. apply Hvis.
  - intros v p. rewrite app_nil_r. apply Hpaths.
  - intros v p [].
  - intros x q Hq Hlen.
    destruct (Nat.lt_ge_cases (length q) L) as [Hlt | Hge];
      [now apply (Hbelow x q) |].
    assert (Hxv : In x visited).
    { destruct (walk_unsnoc g s x q Hq)
        as [[-> ->] | (q' & u & -> & Hq' & He)]; [exact Hstart |].
      apply (Hclosed u x); [| exact He].
      apply (Hbelow u q' Hq'). rewrite length_app in Hlen. simpl in Hlen.
      lia. }
    apply Hvis in Hxv. destruct Hxv as [Hd | Hin]; [exact Hd |].
    exfalso. apply in_map_iff in Hin. destruct Hin as ([x' px] & E & Hin).
    simpl in E. subst x'.
    destruct (Hpaths x px Hin) as [_ Hmin].
    specialize (Hmin q Hq). specialize (Hl2 x px Hin). lia.
Qed.

(** Taking a vertex that is not the end from the first layer and putting
    its unvisited neighbours at the end of the queue keeps the
    invariant. *)
Lemma sp_inv_step (g : Graph) (s e c : value) (L : nat) (p : list value)
    (q1 q2 : list (value * list value)) (visited : pyset)
    (done ns new : list value) :
  sp_inv g s e L ((c, p) :: q1) q2 visited done ->
  c <> e ->
  (forall y, has_edge g c y <-> In y ns) ->
  (forall x, In x new <-> In x ns /\ ~ In x visited) ->
  sp_inv g s e L q1 (q2 ++ map (fun n => (n, p ++ [n])) new)
    (rev new ++ visited) (c :: done).
Proof.
  intros [Hvis Hpaths Hl1 Hl2 Hbelow Hclosed Hend Hstart] Hce Hedges Hnew.
  assert (Hp : shortest_walk g s c p) by (apply Hpaths; now left).
  assert (HpL : length p = L) by (apply (Hl1 c p); now left).
  split.
  - intros x. rewrite in_app_iff, <- in_rev, Hvis.
    rewrite !map_app, !in_app_iff, map_map. simpl.
    rewrite ?map_app, ?in_app_iff, map_id. tauto.
  - intros v pv Hin. rewrite app_assoc in Hin. apply in_app_or in Hin.
    destruct Hin as [Hin | Hin].
    + apply Hpaths. simpl. right. exact Hin.
    + apply in_map_iff in Hin. destruct Hin as (n & [= <- <-] & Hn).
      apply Hnew in Hn. destruct Hn as [Hn Hnv].
      apply Hedges in Hn. split.
      * apply walk_snoc with (c := c); [apply Hp | exact Hn].
      * intros q Hq. rewrite length_app. simpl.
        destruct (walk_unsnoc g s n q Hq)
          as [[-> ->] | (q' & u & -> & Hq' & He)];
          [contradiction |].
        rewrite length_app. simpl.
        destruct (Nat.lt_ge_cases (length q') L) as [Hlt | Hge]; [| lia].
        exfalso. apply Hnv. apply (Hclosed u n); [| exact He].
        now apply (Hbelow u q').
  - intros v pv Hin. apply (Hl1 v pv). now right.
  - intros v pv Hin. apply in_app_or in Hin. destruct Hin as [Hin | Hin].
    + now apply (Hl2 v pv).
    + apply in_map_iff in Hin. destruct Hin as (n & [= <- <-] & _).
      rewrite length_app. simpl. lia.
  - intros x q Hq Hlen. right. now apply (Hbelow x q).
  - intros x y [<- | Hx] He.
    + apply in_or_app. apply Hedges in He.
      destruct (in_dec value_eq_dec y visited) as [Hy | Hy]; [now right |].
      left. apply -> in_rev. apply Hnew. tauto.
    + apply in_or_app. right. now apply (Hclosed x y).
  - intros x [<- | Hx]; [exact Hce | now apply Hend].
  - apply in_or_app. now right.
Qed.

(** The loop of [shortest_path] under its invariant: it returns a walk
    from the start to the end with as few nodes as any, or the empty list
    when there is no walk. *)
Lemma shortest_path_while_inv (g : Graph) (s e : value) :
  Forall (fun n => hashable n = true) (all_items g) ->
  forall (fuel L : nat) (q1 q2 : list (value * list value))
         (visited : pyset) (done result : list value),
    shortest_path_while fuel g e (q1 ++ q2) visited = Val result ->
    sp_inv g s e L q1 q2 visited done ->
    (result = [] /\ ~ connected g s e) \/ shortest_walk g s e result.
Proof.
  intros Hitems. induction fuel as [| fuel IH];
    intros L q1 q2 visited done result Hrun Hinv.
  - destruct (q1 ++ q2) as [| [c p] q] eqn:Eq; [| discriminate].
    injection Hrun as <-. left. split; [reflexivity |].
    destruct Hinv as [Hvis _ _ _ _ Hclosed Hend Hstart].
    rewrite Eq in Hvis. simpl in Hvis.
    assert (Hall : forall x, connected g s x -> In x done).
    { induction 1 as [| b c _ IHc He].
      - apply Hvis in Hstart. tauto.
      - assert (H : In c visited) by now apply (Hclosed b c).
        apply Hvis in H. tauto. }
    intros Hc. now apply (Hend e (Hall e Hc)).
  - destruct (q1 ++ q2) as [| [c p] q] eqn:Eq.
    + injection Hrun as <-. left. split; [reflexivity |].
      destruct Hinv as [Hvis _ _ _ _ Hclosed Hend Hstart].
      rewrite Eq in Hvis. simpl in Hvis.
      assert (Hall : forall x, connected g s x -> In x done).
      { induction 1 as [| b c _ IHc He].
        - apply Hvis in Hstart. tauto.
        - assert (H : In c visited) by now apply (Hclosed b c).
          apply Hvis in H. tauto. }
      intros Hc. now apply (Hend e (Hall e Hc)).
    + assert (Hnorm : exists L' q1' q2',
                 q = q1' ++ q2' /\
                 sp_inv g s e L' ((c, p) :: q1') q2' visited done).
      { destruct q1 as [| e1 q1].
        - simpl in Eq. subst q2. exists (S L), q, [].
          split; [now rewrite app_nil_r |]. now apply sp_inv_shift.
        - simpl in Eq. injection Eq as -> <-. now exists L, q1, q2. }
      destruct Hnorm as (L' & q1' & q2' & -> & Hinv').
      cbn [shortest_path_while] in Hrun.
      destruct (value_eqb_spec c e) as [-> | Hce].
      * injection Hrun as <-. right.
        apply (sp_paths Hinv'). now left.
      * destruct (get_neighbors g c) as [ns | |] eqn:Hns; try discriminate.
        cbn [bind] in Hrun.
        assert (Hc : hashable c = true).
        { unfold get_neighbors, dict_get in Hns.
          destruct (hashable c); [reflexivity | discriminate]. }
        destruct (get_neighbors_total g c Hc) as (ns' & Hns' & Hsub).
        rewrite Hns in Hns'. injection Hns' as <-.
        assert (Hnsh : Forall (fun n => hashable n = true) ns).
        { rewrite Forall_forall in *. auto. }
        destruct (shortest_path_for_exact p ns visited (q1' ++ q2') Hnsh)
          as (new & Hfor & Hnew).
        rewrite Hfor in Hrun. cbn [bind] in Hrun.
        rewrite <- app_assoc in Hrun.
        apply (IH L' q1' _ _ (c :: done) result Hrun).
        apply sp_inv_step with (ns := ns); try assumption.
        now apply get_neighbors_edges.
Qed.

Lemma sp_inv_initial (g : Graph) (s e : value) :
  sp_inv g s e 1 [(s, [s])] [] [s] [].
Proof.
  split; simpl.
  - intros x. tauto.
  - intros v p [[= <- <-] | []]. split.
    + repeat split. discriminate.
    + intros q (_ & _ & _ & Hne). destruct q; [congruence | simpl; lia].
  - intros v p [[= <- <-] | []]. reflexivity.
  - intros v p [].
  - intros x q (_ & _ & _ & Hne) Hlen. destruct q; [congruence |].
    simpl in Hlen. lia.
  - intros x y [].
  - intros x [].
  - now left.
Qed.

(** X22.  On a graph of the data model and for two nodes of the graph,
    [shortest_path] returns normally.  When the end cannot be reached
    from the start it returns the empty list; otherwise it returns a walk
    from the start to the end, each node a stored neighbour of the one
    before, and no walk from the start to the end has fewer nodes. *)
Theorem shortest_path_shortest (g : Graph) (s e : value) :
  graph_inv g ->
  is_key s (adj_list g) = true ->
  is_key e (adj_list g) = true ->
  exists p,
    shortest_path g s e = Val p /\
    ((p = [] /\ ~ connected g s e) \/
     (walk_from_to g s e p /\
      forall q, walk_from_to g s e q -> length p <= length q)).
Proof.
  intros Hinv Ks Ke.
  pose proof (graph_inv_items_hashable g Hinv) as Hitems.
  assert (Hkh : forall k, is_key k (adj_list g) = true -> hashable k = true).
  { intros k Hk. destruct Hinv as [[_ Hh] _ _].
    rewrite Forall_forall in Hh. apply Hh. now apply is_key_In. }
  pose proof (Hkh s Ks) as Hs. pose proof (Hkh e Ke) as He.
  destruct (shortest_path_total g s e Hinv Hs He) as (p & Hrun).
  exists p. split; [exact Hrun |].
  unfold shortest_path, dict_contains, set_add in Hrun.
  rewrite Hs, He, Ks, Ke in Hrun.
  cbn [bind negb list_contains existsb] in Hrun.
  apply (shortest_path_while_inv g s e Hitems (node_bound g) 1
           [(s, [s])] [] [s] [] p Hrun).
  apply sp_inv_initial.
Qed.

Lemma shortest_path_shortest_witness :
  let g := snd (add_edge (VStr "B") (VStr "C") true
                  (snd (add_edge (VStr "A") (VStr "B") true empty_graph))) in
  exists p,
    shortest_path g (VStr "A") (VStr "C") = Val p /\
    ((p = [] /\ ~ connected g (VStr "A") (VStr "C")) \/
     (walk_from_to g (VStr "A") (VStr "C") p /\
      forall q, walk_from_to g (VStr "A") (VStr "C") q ->
                length p <= length q)).
Proof.
  apply (shortest_path_shortest
           (snd (add_edge (VStr "B") (VStr "C") true
                   (snd (add_edge (VStr "A") (VStr "B") true empty_graph))))
           (VStr "A") (VStr "C")).
  - apply reachable_inv, reach_add_edge, reach_add_edge, reach_empty.
  - reflexivity.
  - reflexivity.
Defined.

(** X23.  The edge cases of [shortest_path] for a start that hashes: a
    start that is not a node gives the empty list, whatever the end is;
    so does an end that is not a node; and from a node to itself the path
    is that node alone.  For a value [x] that is not a node, then,
    [shortest_path(x, x)] is empty although [has_path(x, x)] is true. *)
Theorem shortest_path_edge_cases (g : Graph) (s e : value) :
  hashable s = true ->
  (is_key s (adj_list g) = false -> shortest_path g s e = Val []) /\
  (hashable e = true -> is_key e (adj_list g) = false ->
   shortest_path g s e = Val []) /\
  (is_key s (adj_list g) = true -> shortest_path g s s = Val [s]) /\
  (is_key s (adj_list g) = false ->
   shortest_path g s s = Val [] /\ has_path g s s = Val true).
Proof.
  intros Hs. unfold shortest_path, dict_contains. rewrite Hs. cbn [bind].
  split; [| split; [| split]].
  - now intros ->.
  - intros He Ke. rewrite He, Ke.
    destruct (is_key s (adj_list g)); reflexivity.
  - intros Ks. rewrite Ks. cbn [negb bind]. unfold set_add. rewrite Hs.
    cbn [bind list_contains existsb]. unfold node_bound.
    cbn [shortest_path_while]. now rewrite value_eqb_refl.
  - intros Ks. rewrite Ks. split; [reflexivity |].
    unfold has_path, bfs, set_add. rewrite Hs.
    cbn [bind list_contains existsb]. unfold node_bound. cbn [bfs_while].
    rewrite (get_neighbors_absent g s Hs Ks). cbn [bind bfs_for].
    rewrite bfs_while_done. cbn [bind app list_contains existsb].
    now rewrite value_eqb_refl.
Qed.

Lemma shortest_path_edge_cases_witness :
  let g := snd (add_edge (VStr "A") (VStr "B") true empty_graph) in
  (is_key (VStr "Z") (adj_list g) = false ->
   shortest_path g (VStr "Z") (VStr "A") = Val []) /\
  (hashable (VStr "A") = true -> is_key (VStr "A") (adj_list g) = false ->
   shortest_path g (VStr "Z") (VStr "A") = Val []) /\
  (is_key (VStr "Z") (adj_list g) = true ->
   shortest_path g (VStr "Z") (VStr "Z") = Val [VStr "Z"]) /\
  (is_key (VStr "Z") (adj_list g) = false ->
   shortest_path g (VStr "Z") (VStr "Z") = Val [] /\
   has_path g (VStr "Z") (VStr "Z") = Val true).
Proof.
  apply (shortest_path_edge_cases
           (snd (add_edge (VStr "A") (VStr "B") true empty_graph))
           (VStr "Z") (VStr "A")).
  reflexivity.
Defined.

(** ** Cycles *)



Lemma is_walk_app_l (g : Graph) (l1 l2 : list value) :
  is_walk g (l1 ++ l2) -> is_walk g l1.
Proof.
  induction l1 as [| a l1 IH]; [intros _; exact I |].
  intros H. destruct l1 as [| b l1]; [exact I |].
  destruct H as [Hab H]. split; [exact Hab | now apply IH].
Qed.


Lemma is_walk_cons (g : Graph) (a b : value) (l : list value) :
  has_edge g a b -> is_walk g (b :: l) -> is_walk g (a :: b :: l).
Proof. intros Hab H. split; assumption. Qed.









(** ** What [is_cyclic] returns *)







